(** * Gas particle simulation: the per-tick physics kernel [step]

    A shallow embedding of [step] from [gas-particle-simulation.py]:
    forward-Euler integration, all-pairs collision detection reduced by
    [np.unique]/[np.in1d], equal-mass elastic collision response and
    reflection off the walls of the canvas.

    The kernel is written once, over an abstract number type, and used at
    two instances: IEEE binary64 (what NumPy computes with; it evaluates)
    and exact real arithmetic extended with NaN (no rounding, no overflow). *)

From Stdlib Require Import Reals Lra Lia Floats ZArith.
From stdpp Require Import base list sorting.

Set Default Proof Using "Type".

(** ** Numbers *)

(** The arithmetic [step] uses on array cells: the literals [0.5], [1],
    [2], the four operations, unary minus, [sqrt], and the comparisons
    [<=] and [<] ([a > b] is [b < a]). *)
Class Num (A : Type) := {
  nzero : A;
  nhalf : A;
  none : A;
  ntwo : A;
  nadd : A -> A -> A;
  nsub : A -> A -> A;
  nmul : A -> A -> A;
  ndiv : A -> A -> A;
  nneg : A -> A;
  nsqrt : A -> A;
  nleb : A -> A -> bool;
  nltb : A -> A -> bool
}.

Declare Scope num_scope.
Delimit Scope num_scope with num.
Infix "+" := nadd : num_scope.
Infix "-" := nsub : num_scope.
Infix "*" := nmul : num_scope.
Infix "/" := ndiv : num_scope.
Notation "- x" := (nneg x) : num_scope.
Infix "<=?" := nleb : num_scope.
Infix "<?" := nltb : num_scope.
Notation "x >? y" := (nltb y x) : num_scope.

(** IEEE binary64, the cell type of a NumPy float array. *)
#[export] Instance float_Num : Num float := {
  nzero := 0%float;
  nhalf := 0.5%float;
  none := 1%float;
  ntwo := 2%float;
  nadd := PrimFloat.add;
  nsub := PrimFloat.sub;
  nmul := PrimFloat.mul;
  ndiv := PrimFloat.div;
  nneg := PrimFloat.opp;
  nsqrt := PrimFloat.sqrt;
  nleb := PrimFloat.leb;
  nltb := PrimFloat.ltb
}.

(** Exact real arithmetic with an undefined value.  [NaN] is absorbing,
    every comparison with it is false, and a division by zero or the square
    root of a negative number gives it.  (IEEE gives an infinity for
    [x / 0] with [x <> 0]; in [step] the divisor is the norm of [pos_diff],
    and each quotient is multiplied by [pos_diff], the zero vector when the
    norm is zero, which turns the infinity into NaN before it is stored.) *)
Inductive xreal : Type :=
  | Fin (r : R)
  | NaN.

Definition xlift2 (f : R -> R -> R) (a b : xreal) : xreal :=
  match a, b with
  | Fin x, Fin y => Fin (f x y)
  | _, _ => NaN
  end.

Definition xdiv (a b : xreal) : xreal :=
  match a, b with
  | Fin x, Fin y => if Req_dec_T y 0 then NaN else Fin (x / y)%R
  | _, _ => NaN
  end.

Definition xneg (a : xreal) : xreal :=
  match a with
  | Fin x => Fin (- x)%R
  | NaN => NaN
  end.

Definition xsqrt (a : xreal) : xreal :=
  match a with
  | Fin x => if Rlt_dec x 0 then NaN else Fin (R_sqrt.sqrt x)
  | NaN => NaN
  end.

Definition xleb (a b : xreal) : bool :=
  match a, b with
  | Fin x, Fin y => if Rle_dec x y then true else false
  | _, _ => false
  end.

Definition xltb (a b : xreal) : bool :=
  match a, b with
  | Fin x, Fin y => if Rlt_dec x y then true else false
  | _, _ => false
  end.

#[export] Instance xreal_Num : Num xreal := {
  nzero := Fin 0;
  nhalf := Fin (1 / 2)%R;
  none := Fin 1;
  ntwo := Fin 2;
  nadd := xlift2 Rplus;
  nsub := xlift2 Rminus;
  nmul := xlift2 Rmult;
  ndiv := xdiv;
  nneg := xneg;
  nsqrt := xsqrt;
  nleb := xleb;
  nltb := xltb
}.

(** ** NumPy array primitives *)

(** [arr[mask]] for a boolean [mask]. *)
Fixpoint compress {B : Type} (mask : list bool) (arr : list B) : list B :=
  match mask, arr with
  | m :: mask', x :: arr' =>
      if m then x :: compress mask' arr' else compress mask' arr'
  | _, _ => []
  end.

(** [arr[idx]] for an integer index array [idx].  NumPy raises IndexError
    on an index past the end; [d] stands there, and [collide_lt] below shows
    that [step] never indexes out of range. *)
Definition take_idx {B : Type} (d : B) (idx : list nat) (arr : list B) : list B :=
  (fun k => nth k arr d) <$> idx.

(** [np.triu_indices(n, k=1)]: row and column indices of the strict upper
    triangle, row by row. *)
Definition triu_indices (n : nat) : list nat * list nat :=
  (mbind (fun i => replicate (n - S i) i) (seq 0 n),
   mbind (fun i => seq (S i) (n - S i)) (seq 0 n)).

(** Sorted insertion without duplicates. *)
Fixpoint insert_uniq (x : nat) (l : list nat) : list nat :=
  match l with
  | [] => [x]
  | y :: t =>
      if x <? y then x :: l
      else if x =? y then l
      else y :: insert_uniq x t
  end.

(** The sorted unique values of [ar]. *)
Definition sort_uniq (ar : list nat) : list nat := foldr insert_uniq [] ar.

(** Index of the first occurrence of [x] in [ar]. *)
Fixpoint first_index (x : nat) (ar : list nat) : nat :=
  match ar with
  | [] => 0
  | y :: t => if x =? y then 0 else S (first_index x t)
  end.

(** [np.unique(ar, return_index=True)]: the sorted unique values and, for
    each, the index of its first occurrence in [ar]. *)
Definition np_unique (ar : list nat) : list nat * list nat :=
  let u := sort_uniq ar in
  (u, (fun x => first_index x ar) <$> u).

(** [np.in1d(ar1, ar2, invert=True)]. *)
Definition in1d_invert (ar1 ar2 : list nat) : list bool :=
  (fun x => negb (existsb (Nat.eqb x) ar2)) <$> ar1.

(** ** The particle state and [step] *)

Section Step.
Context {A : Type} `{Num A}.
Local Open Scope num_scope.

(** One row of [particle_state]: columns 0 and 1 hold the position,
    columns 2 and 3 the velocity. *)
Record row : Type := Row { px : A; py : A; vx : A; vy : A }.

Definition row0 : row := Row nzero nzero nzero nzero.

Definition get_col (i : nat) (r : row) : A :=
  match i with
  | 0 => px r
  | 1 => py r
  | 2 => vx r
  | _ => vy r
  end.

Definition set_col (i : nat) (a : A) (r : row) : row :=
  match i with
  | 0 => Row a (py r) (vx r) (vy r)
  | 1 => Row (px r) a (vx r) (vy r)
  | 2 => Row (px r) (py r) a (vy r)
  | _ => Row (px r) (py r) (vx r) a
  end.

(** The globals [radius], [w] and [h]. *)
Variables (radius w h : A).

(** [particle_state[:, :2] += particle_state[:, 2:] * time_step] *)
Definition integrate (time_step : A) (particle_state : list row) : list row :=
  (fun r => Row (px r + vx r * time_step) (py r + vy r * time_step)
                (vx r) (vy r))
    <$> particle_state.

(** Euclidean distance of two centres, as [pdist] and [norm] compute it. *)
Definition euclidean (p q : row) : A :=
  let dx := px p - px q in
  let dy := py p - py q in
  nsqrt (dx * dx + dy * dy).

(** [pdist(particle_state[:, :2])]: the condensed distance vector, in the
    order of [triu_indices]. *)
Fixpoint pdist (X : list row) : list A :=
  match X with
  | [] => []
  | p :: t => (euclidean p <$> t) ++ pdist t
  end.

(** Lines 76-81: the raw colliding pairs, as two parallel arrays. *)
Definition raw_colliding (particle_state : list row) : list nat * list nat :=
  let distances := pdist particle_state in
  let is_colliding := (fun d => d <=? ntwo * radius) <$> distances in
  let upper_triangle_indices := triu_indices (length particle_state) in
  (compress is_colliding (fst upper_triangle_indices),
   compress is_colliding (snd upper_triangle_indices)).

(** Lines 84-89: the three-stage reduction of the pair arrays. *)
Definition distinct (colliding_1 colliding_2 : list nat) : list nat * list nat :=
  let mask := snd (np_unique colliding_1) in
  let colliding_1 := take_idx 0%nat mask colliding_1 in
  let colliding_2 := take_idx 0%nat mask colliding_2 in
  let mask := snd (np_unique colliding_2) in
  let colliding_1 := take_idx 0%nat mask colliding_1 in
  let colliding_2 := take_idx 0%nat mask colliding_2 in
  let distinct_pairs := in1d_invert colliding_1 colliding_2 in
  (compress distinct_pairs colliding_1, compress distinct_pairs colliding_2).

Definition collide (particle_state : list row) : list nat * list nat :=
  let '(colliding_1, colliding_2) := raw_colliding particle_state in
  distinct colliding_1 colliding_2.

(** [particle_state[idx, 2:] = vals] and [particle_state[idx, :2] = vals]:
    one assignment per index, in order. *)
Definition set_vel (v : A * A) (r : row) : row :=
  Row (px r) (py r) (fst v) (snd v).

Definition set_pos (p : A * A) (r : row) : row :=
  Row (fst p) (snd p) (vx r) (vy r).

Fixpoint scatter (f : A * A -> row -> row) (idx : list nat)
    (vals : list (A * A)) (particle_state : list row) : list row :=
  match idx, vals with
  | i :: idx', v :: vals' => scatter f idx' vals' (alter (f v) i particle_state)
  | _, _ => particle_state
  end.

(** Lines 95-104 for one pair of gathered rows. *)
Definition new_vel_1 (r1 r2 : row) : A * A :=
  let pos_diff := (px r2 - px r1, py r2 - py r1) in
  let vel_diff := (vx r1 - vx r2, vy r1 - vy r2) in
  let scalar_product :=
    fst vel_diff * fst pos_diff + snd vel_diff * snd pos_diff in
  let pos_diff_norm :=
    nsqrt (fst pos_diff * fst pos_diff + snd pos_diff * snd pos_diff) in
  let c := scalar_product / (pos_diff_norm * pos_diff_norm) in
  (vx r1 - c * fst pos_diff, vy r1 - c * snd pos_diff).

Definition new_vel_2 (r1 r2 : row) : A * A :=
  let pos_diff := (px r2 - px r1, py r2 - py r1) in
  let vel_diff := (vx r1 - vx r2, vy r1 - vy r2) in
  let scalar_product :=
    fst vel_diff * fst pos_diff + snd vel_diff * snd pos_diff in
  let pos_diff_norm :=
    nsqrt (fst pos_diff * fst pos_diff + snd pos_diff * snd pos_diff) in
  let c := scalar_product / (pos_diff_norm * pos_diff_norm) in
  (vx r2 + c * fst pos_diff, vy r2 + c * snd pos_diff).

Definition new_pos_1 (r1 r2 : row) : A * A :=
  let pos_diff := (px r2 - px r1, py r2 - py r1) in
  let pos_diff_norm :=
    nsqrt (fst pos_diff * fst pos_diff + snd pos_diff * snd pos_diff) in
  let c := nhalf * (ntwo * radius / pos_diff_norm - none) in
  (px r1 - c * fst pos_diff, py r1 - c * snd pos_diff).

Definition new_pos_2 (r1 r2 : row) : A * A :=
  let pos_diff := (px r2 - px r1, py r2 - py r1) in
  let pos_diff_norm :=
    nsqrt (fst pos_diff * fst pos_diff + snd pos_diff * snd pos_diff) in
  let c := nhalf * (ntwo * radius / pos_diff_norm - none) in
  (px r2 + c * fst pos_diff, py r2 + c * snd pos_diff).

(** Lines 92-104: the right-hand sides are computed from the rows gathered
    before the first assignment. *)
Definition resolve (colliding_1 colliding_2 : list nat)
    (particle_state : list row) : list row :=
  match colliding_1 with
  | [] => particle_state
  | _ :: _ =>
      let rows_1 := take_idx row0 colliding_1 particle_state in
      let rows_2 := take_idx row0 colliding_2 particle_state in
      let st := scatter set_vel colliding_1 (zip_with new_vel_1 rows_1 rows_2)
                        particle_state in
      let st := scatter set_vel colliding_2 (zip_with new_vel_2 rows_1 rows_2) st in
      let st := scatter set_pos colliding_1 (zip_with new_pos_1 rows_1 rows_2) st in
      scatter set_pos colliding_2 (zip_with new_pos_2 rows_1 rows_2) st
  end.

(** [particle_state[mask, ...] = f(particle_state[mask, ...])] *)
Definition masked (mask : list bool) (f : row -> row)
    (particle_state : list row) : list row :=
  zip_with (fun (m : bool) r => if m then f r else r) mask particle_state.

(** Lines 108-118: one pass of the wall loop, for column [i]. *)
Definition rebound_axis (i : nat) (size : A) (particle_state : list row) : list row :=
  let out_of_bounds_min := (fun r => get_col i r <? radius) <$> particle_state in
  let out_of_bounds_max :=
    (fun r => get_col i r >? size - radius) <$> particle_state in
  let st :=
    if existsb (fun b : bool => b) out_of_bounds_min then
      let st := masked out_of_bounds_min
                  (fun r => set_col (i + 2) (- get_col (i + 2) r) r)
                  particle_state in
      masked out_of_bounds_min
        (fun r => set_col i (get_col i r + (radius - get_col i r + none)) r) st
    else particle_state in
  if existsb (fun b : bool => b) out_of_bounds_max then
    let st := masked out_of_bounds_max
                (fun r => set_col (i + 2) (- get_col (i + 2) r) r) st in
    masked out_of_bounds_max
      (fun r => set_col i (get_col i r + (size - radius - get_col i r - none)) r) st
  else st.

Definition rebound (particle_state : list row) : list row :=
  rebound_axis 1 h (rebound_axis 0 w particle_state).

(** [step]: the new contents of [particle_state]. *)
Definition step (time_step : A) (particle_state : list row) : list row :=
  let particle_state := integrate time_step particle_state in
  let '(colliding_1, colliding_2) := collide particle_state in
  let particle_state := resolve colliding_1 colliding_2 particle_state in
  rebound particle_state.


(** [n] calls of [step], as [animate] makes them. *)
Fixpoint steps (n : nat) (time_step : A) (particle_state : list row) : list row :=
  match n with
  | O => particle_state
  | S n' => steps n' time_step (step time_step particle_state)
  end.

End Step.

Arguments row A : clear implicits.
Arguments Row {A} _ _ _ _.

(** ** The matching as the specification words it *)

(** The pairs [(i, j)] with [i < j < n]: [i] ascending, then [j] ascending
    for fixed [i]. *)
Definition all_pairs (n : nat) : list (nat * nat) :=
  mbind (fun i => pair i <$> seq (S i) (n - S i)) (seq 0 n).

(** Keep, for each distinct key, only the first pair that carries it;
    [seen] holds the keys met so far. *)
Fixpoint first_per (key : nat * nat -> nat) (seen : list nat)
    (ps : list (nat * nat)) : list (nat * nat) :=
  match ps with
  | [] => []
  | p :: t =>
      if existsb (Nat.eqb (key p)) seen then first_per key seen t
      else p :: first_per key (key p :: seen) t
  end.

(** The three stages, on a list of pairs: first pair per first index, then
    first pair per second index, then drop the pairs whose first index is a
    second index among the survivors of the second stage. *)
Definition spec_distinct (ps : list (nat * nat)) : list (nat * nat) :=
  let stage_1 := first_per fst [] ps in
  let stage_2 := first_per snd [] stage_1 in
  List.filter (fun p => negb (existsb (Nat.eqb p.1) (snd <$> stage_2))) stage_2.

Section Reference.
Context {A : Type} `{Num A}.
Local Open Scope num_scope.
Variable radius : A.

(** Centre distance of the particles with indices [p.1] and [p.2]. *)
Definition pair_dist (X : list (row A)) (p : nat * nat) : A :=
  euclidean (nth p.1 X row0) (nth p.2 X row0).

(** A pair is colliding if its distance is at most [2 * radius]. *)
Definition near (X : list (row A)) (p : nat * nat) : bool :=
  pair_dist X p <=? ntwo * radius.

Definition spec_colliding (particle_state : list (row A)) : list (nat * nat) :=
  List.filter (near particle_state) (all_pairs (length particle_state)).

Definition spec_matching (particle_state : list (row A)) : list (nat * nat) :=
  spec_distinct (spec_colliding particle_state).

(** What [resolve] leaves in the two rows of a pair, from the rows
    gathered before the assignments. *)
Definition resolved_1 (r1 r2 : row A) : row A :=
  set_pos (new_pos_1 radius r1 r2) (set_vel (new_vel_1 r1 r2) r1).

Definition resolved_2 (r1 r2 : row A) : row A :=
  set_pos (new_pos_2 radius r1 r2) (set_vel (new_vel_2 r1 r2) r2).

(** What one pass of the wall loop does to a single row. *)
Definition rebound_row (i : nat) (size : A) (r : row A) : row A :=
  let r1 :=
    if get_col i r <? radius then
      let r' := set_col (i + 2) (- get_col (i + 2) r) r in
      set_col i (get_col i r' + (radius - get_col i r' + none)) r'
    else r in
  if get_col i r >? size - radius then
    let r' := set_col (i + 2) (- get_col (i + 2) r1) r1 in
    set_col i (get_col i r' + (size - radius - get_col i r' - none)) r'
  else r1.

End Reference.

(** [p] sits in [ps] at the first position that carries its key. *)
Definition first_occ (key : nat * nat -> nat) (ps : list (nat * nat))
    (p : nat * nat) : Prop :=
  exists k, ps !! k = Some p /\
            forall k' q, k' < k -> ps !! k' = Some q -> key q <> key p.

(** ** States over the exact reals *)

Definition fin_row (x y u v : R) : row xreal :=
  Row (Fin x) (Fin y) (Fin u) (Fin v).

Definition nan_row : row xreal := Row NaN NaN NaN NaN.


(** The reflection of one coordinate and its velocity component off the
    walls at [0] and [size], as the specification words it. *)
Definition reflect (rad size x v : R) : R * R :=
  if Rlt_dec x rad then (rad + 1, - v)%R
  else if Rlt_dec (size - rad) x then (size - rad - 1, - v)%R
  else (x, v).

(** Two particles in contact, moving head-on. *)
Definition head_on : list (row xreal) :=
  [fin_row 10 50 5 0; fin_row 16 50 (-5) 0].

(** Two particles at the same point. *)
Definition overlap : list (row xreal) :=
  [fin_row 10 50 5 0; fin_row 10 50 (-5) 0].



(** The same scenes on binary64, and a third particle far from the pair. *)
Definition head_on_f64 : list (row float) :=
  [Row 10 50 5 0; Row 16 50 (-5) 0]%float.

Definition overlap_f64 : list (row float) :=
  [Row 10 50 5 0; Row 10 50 (-5) 0]%float.


Definition bystander_f64 : list (row float) :=
  [Row 10 50 5 0; Row 16 50 (-5) 0; Row 100 100 1 1]%float.

(** [step] with the defaults of the script: [radius = 3] on the 700 by 700
    canvas, on binary64 and on the exact reals. *)
Definition f64_step : float -> list (row float) -> list (row float) :=
  step (A := float) 3%float 700%float 700%float.

Definition real_step : xreal -> list (row xreal) -> list (row xreal) :=
  step (Fin 3) (Fin 700) (Fin 700).

(** ** The canvas and the observables of a state *)

Section Canvas.
Context {A : Type} `{Num A}.
Local Open Scope num_scope.
Variables (radius w h : A).





(** Squared speed of a particle, and its sum over the state; the sums of
    the velocity components. *)
Definition kinetic (r : row A) : A := vx r * vx r + vy r * vy r.

Definition total_kinetic (particle_state : list (row A)) : A :=
  foldr (fun r acc => kinetic r + acc) nzero particle_state.

Definition total_vx (particle_state : list (row A)) : A :=
  foldr (fun r acc => vx r + acc) nzero particle_state.

Definition total_vy (particle_state : list (row A)) : A :=
  foldr (fun r acc => vy r + acc) nzero particle_state.

End Canvas.

(** Lines 20-25: the row of a particle drawn at the integer point [(x, y)]
    with motion angle [theta]. *)
Definition initial_row (velocity : R) (x y : Z) (theta : R) : row xreal :=
  Row (Fin (IZR x)) (Fin (IZR y))
      (Fin (velocity * sin theta)) (Fin (velocity * cos theta)).

(** A state whose cells are all real numbers. *)
Definition finite_state (particle_state : list (row xreal)) : Prop :=
  Forall (fun r => exists x y u v, r = fin_row x y u v) particle_state.

(** Lines 20-25: the initial [particle_state], from the integer points and
    the motion angles that were drawn. *)
Definition initial_state (velocity : R) (samples : list (Z * Z * R))
    : list (row xreal) :=
  (fun s => initial_row velocity s.1.1 s.1.2 s.2) <$> samples.

(** A coordinate that the wall loop leaves alone: not a number, or at
    least [rad] away from both walls. *)
Definition settled (rad size : R) (c : xreal) : Prop :=
  match c with
  | Fin x => (rad <= x <= size - rad)%R
  | NaN => True
  end.

(** The real number in a cell ([0] for NaN), and the sum of a real-valued
    reading over the rows of a state. *)
Definition real_of (c : xreal) : R :=
  match c with
  | Fin x => x
  | NaN => 0%R
  end.

Definition rsum (f : row xreal -> R) (particle_state : list (row xreal)) : R :=
  foldr (fun r acc => (f r + acc)%R) 0%R particle_state.

Definition rkin (r : row xreal) : R :=
  (real_of (vx r) * real_of (vx r) + real_of (vy r) * real_of (vy r))%R.

(** The sum of a real-valued reading over a list of indices. *)
Definition isum (g : nat -> R) (idx : list nat) : R :=
  foldr (fun i acc => (g i + acc)%R) 0%R idx.

(** * Proofs *)

(** ** The array primitives *)

Lemma insert_uniq_elem x y l : y ∈ insert_uniq x l ↔ y = x ∨ y ∈ l.
Proof.
  induction l as [|z t IH]; simpl.
  - rewrite list_elem_of_singleton. split; [by left|]. intros [?|?%elem_of_nil]; done.
  - destruct (x <? z); [by rewrite elem_of_cons|].
    destruct (x =? z) eqn:E.
    + apply Nat.eqb_eq in E as ->. rewrite elem_of_cons. tauto.
    + rewrite !elem_of_cons, IH. tauto.
Qed.

Lemma insert_uniq_sorted x l :
  StronglySorted lt l → StronglySorted lt (insert_uniq x l).
Proof.
  induction 1 as [|z t Hs IH Hz]; simpl.
  - repeat constructor.
  - destruct (x <? z) eqn:E1.
    + apply Nat.ltb_lt in E1. constructor; [by constructor|].
      constructor; [done|]. eapply Forall_impl; [exact Hz|]. simpl. lia.
    + apply Nat.ltb_ge in E1. destruct (x =? z) eqn:E2; [by constructor|].
      apply Nat.eqb_neq in E2. constructor; [done|].
      apply Forall_forall. intros y Hy. apply insert_uniq_elem in Hy as [->|Hy]; [lia|].
      by eapply Forall_forall in Hz.
Qed.

Lemma sort_uniq_elem x ar : x ∈ sort_uniq ar ↔ x ∈ ar.
Proof.
  induction ar as [|y t IH]; simpl; [done|].
  by rewrite insert_uniq_elem, elem_of_cons, IH.
Qed.

Lemma sort_uniq_sorted ar : StronglySorted lt (sort_uniq ar).
Proof.
  induction ar; simpl; [constructor|by apply insert_uniq_sorted].
Qed.

Lemma sorted_lt_NoDup (l : list nat) : StronglySorted lt l → NoDup l.
Proof.
  induction 1 as [|z t Hs IH Hz]; constructor; [|done].
  intros Hin. eapply Forall_forall in Hz; [|exact Hin]. lia.
Qed.

Lemma sort_uniq_NoDup ar : NoDup (sort_uniq ar).
Proof. apply sorted_lt_NoDup, sort_uniq_sorted. Qed.

Lemma first_index_lookup x ar : x ∈ ar → ar !! first_index x ar = Some x.
Proof.
  induction ar as [|y t IH]; [by intros ?%elem_of_nil|].
  intros Hin. simpl. destruct (x =? y) eqn:E.
  - apply Nat.eqb_eq in E. by subst.
  - apply Nat.eqb_neq in E. simpl. apply IH.
    by apply elem_of_cons in Hin as [?|?].
Qed.

Lemma first_index_least x ar k y :
  k < first_index x ar → ar !! k = Some y → y ≠ x.
Proof.
  revert k. induction ar as [|z t IH]; intros k; simpl; [lia|].
  destruct (x =? z) eqn:E; [lia|]. apply Nat.eqb_neq in E.
  destruct k as [|k]; simpl.
  - intros _ [= ->]. done.
  - intros Hk. apply IH. lia.
Qed.

Lemma first_index_inj x y ar :
  x ∈ ar → y ∈ ar → first_index x ar = first_index y ar → x = y.
Proof.
  intros Hx%first_index_lookup Hy%first_index_lookup Heq.
  rewrite Heq in Hx. congruence.
Qed.

Lemma take_idx_unique ar :
  take_idx 0 (np_unique ar).2 ar = sort_uniq ar.
Proof.
  unfold take_idx, np_unique. simpl. rewrite <- list_fmap_compose.
  rewrite <- (list_fmap_id (sort_uniq ar)) at 2.
  apply list_fmap_ext. intros i x Hx. simpl.
  apply nth_lookup_Some, first_index_lookup, sort_uniq_elem.
  by eapply list_elem_of_lookup_2.
Qed.

Lemma compress_sublist {B} (m : list bool) (l : list B) :
  compress m l `sublist_of` l.
Proof.
  revert l. induction m as [|b m IH]; intros [|x l]; simpl;
    try apply sublist_nil_l.
  destruct b; [by apply sublist_skip|by apply sublist_cons].
Qed.

Lemma compress_fmap {B} (f : B → bool) (l : list B) :
  compress (f <$> l) l = List.filter f l.
Proof.
  induction l as [|x l IH]; csimpl; [done|]. destruct (f x); by rewrite IH.
Qed.

Lemma compress_zip {B C} (m : list bool) (l : list B) (k : list C) :
  zip (compress m l) (compress m k) = compress m (zip l k).
Proof.
  revert l k. induction m as [|b m IH]; intros [|x l] [|y k]; simpl; try done.
  - by destruct b, (compress m l).
  - destruct b; simpl; by rewrite IH.
Qed.

Lemma length_take_idx {B} (d : B) idx l : length (take_idx d idx l) = length idx.
Proof. apply length_fmap. Qed.

Lemma take_idx_NoDup {B} (d : B) (idx : list nat) (l : list B) :
  NoDup idx → Forall (λ k, k < length l) idx → NoDup l →
  NoDup (take_idx d idx l).
Proof.
  intros Hidx Hlt Hl. apply NoDup_fmap_2_strong; [|done].
  intros i j Hi Hj Heq.
  eapply Forall_forall in Hi; [|exact Hlt]. eapply Forall_forall in Hj; [|exact Hlt].
  simpl in *.
  destruct (lookup_lt_is_Some_2 l i Hi) as [x Hx].
  destruct (lookup_lt_is_Some_2 l j Hj) as [y Hy].
  rewrite (nth_lookup_Some _ _ _ _ Hx), (nth_lookup_Some _ _ _ _ Hy) in Heq.
  subst y. eapply NoDup_lookup; eauto.
Qed.

Lemma unique_mask_NoDup ar : NoDup (np_unique ar).2.
Proof.
  simpl. apply NoDup_fmap_2_strong; [|apply sort_uniq_NoDup].
  intros x y Hx Hy Heq.
  apply (proj1 (sort_uniq_elem _ _)) in Hx, Hy.
  eapply first_index_inj; eauto.
Qed.

Lemma unique_mask_lt ar : Forall (λ k, k < length ar) (np_unique ar).2.
Proof.
  simpl. apply Forall_fmap, Forall_forall. intros x Hx. simpl.
  apply (proj1 (sort_uniq_elem _ _)) in Hx.
  eapply lookup_lt_Some, first_index_lookup, Hx.
Qed.

Lemma in1d_invert_elem c1 c2 x :
  x ∈ compress (in1d_invert c1 c2) c1 → x ∉ c2.
Proof.
  unfold in1d_invert. rewrite compress_fmap. rewrite list_elem_of_In, filter_In.
  intros [_ Hx] Hin. apply negb_true_iff in Hx.
  assert (existsb (Nat.eqb x) c2 = true); [|congruence].
  apply existsb_exists. exists x. rewrite <- list_elem_of_In, Nat.eqb_refl. done.
Qed.

(** The arrays left by the three-stage reduction share no index and
    repeat none. *)
Lemma distinct_NoDup c1 c2 :
  NoDup ((distinct c1 c2).1 ++ (distinct c1 c2).2).
Proof.
  unfold distinct. cbn zeta.
  set (m1 := (np_unique c1).2).
  set (a1 := take_idx 0 m1 c1). set (b1 := take_idx 0 m1 c2).
  set (m2 := (np_unique b1).2).
  set (a2 := take_idx 0 m2 a1). set (b2 := take_idx 0 m2 b1).
  assert (Ha1 : NoDup a1).
  { unfold a1, m1. rewrite take_idx_unique. apply sort_uniq_NoDup. }
  assert (Hb2 : NoDup b2).
  { unfold b2, m2. rewrite take_idx_unique. apply sort_uniq_NoDup. }
  assert (Ha2 : NoDup a2).
  { apply take_idx_NoDup; [apply unique_mask_NoDup| |done].
    replace (length a1) with (length b1); [apply unique_mask_lt|].
    unfold a1, b1. by rewrite !length_take_idx. }
  simpl. apply NoDup_app. split_and!.
  - eapply sublist_NoDup; [exact Ha2|apply compress_sublist].
  - intros x Hx%in1d_invert_elem Hin. apply Hx.
    eapply elem_of_sublist; [exact Hin|apply compress_sublist].
  - eapply sublist_NoDup; [exact Hb2|apply compress_sublist].
Qed.

(** ** Enumeration of the pairs *)

(** triu and all_pairs *)
Lemma zip_bind {B C D} (f : B → list C) (g : B → list D) (l : list B) :
  (∀ i, length (f i) = length (g i)) →
  zip (l ≫= f) (l ≫= g) = l ≫= (λ i, zip (f i) (g i)).
Proof.
  intros Hlen. induction l as [|x l IH]; [done|].
  rewrite !bind_cons, zip_with_app, IH; [done|apply Hlen].
Qed.

Lemma zip_replicate_seq (i : nat) a m : zip (replicate m i) (seq a m) = pair i <$> seq a m.
Proof.
  revert a. induction m as [|m IH]; intros a; [done|].
  simpl. by rewrite IH.
Qed.

Lemma triu_indices_pairs n :
  zip (triu_indices n).1 (triu_indices n).2 = all_pairs n.
Proof.
  unfold triu_indices, all_pairs. simpl. rewrite zip_bind.
  - induction (seq 0 n) as [|i l IH]; [done|].
    by rewrite !bind_cons, IH, zip_replicate_seq.
  - intros i. by rewrite length_replicate, length_seq.
Qed.

Lemma triu_indices_length n :
  length (triu_indices n).1 = length (triu_indices n).2.
Proof.
  unfold triu_indices. simpl. induction (seq 0 n) as [|i l IH]; [done|].
  by rewrite !bind_cons, !length_app, IH, length_replicate, length_seq.
Qed.

Lemma all_pairs_S n :
  all_pairs (S n) =
  (pair 0 <$> seq 1 n) ++ ((λ p, (S p.1, S p.2)) <$> all_pairs n).
Proof.
  unfold all_pairs. simpl seq. rewrite bind_cons. f_equal.
  - by rewrite Nat.sub_0_r.
  - rewrite <- fmap_S_seq, list_fmap_bind.
    induction (seq 0 n) as [|i l IH]; [done|].
    rewrite !bind_cons, fmap_app, IH. f_equal. simpl.
    rewrite <- fmap_S_seq, <- !list_fmap_compose. done.
Qed.

Lemma all_pairs_elem n i j : (i, j) ∈ all_pairs n ↔ i < j < n.
Proof.
  unfold all_pairs. rewrite list_elem_of_bind. split.
  - intros (k & Hin & Hk). apply list_elem_of_fmap in Hin as (j' & [= -> ->] & Hj).
    apply elem_of_seq in Hk, Hj. lia.
  - intros Hij. exists i. split; [|apply elem_of_seq; lia].
    apply list_elem_of_fmap. exists j. split; [done|]. apply elem_of_seq. lia.
Qed.

Section Detect.
Context {A : Type} `{Num A}.
Local Open Scope num_scope.
Variable radius : A.

Lemma pdist_pairs (X : list (row A)) :
  pdist X = pair_dist X <$> all_pairs (length X).
Proof.
  induction X as [|p t IH]; [done|].
  simpl pdist. simpl length. rewrite all_pairs_S, fmap_app, IH. f_equal.
  - rewrite <- list_fmap_compose. apply list_eq. intros i.
    rewrite !list_lookup_fmap.
    destruct (t !! i) as [q|] eqn:Hq; simpl.
    + rewrite lookup_seq_lt by (by eapply lookup_lt_Some). simpl.
      unfold pair_dist. simpl. by rewrite (nth_lookup_Some _ _ _ _ Hq).
    + rewrite lookup_seq_ge; [done|]. by apply lookup_ge_None.
  - rewrite <- list_fmap_compose. by apply list_fmap_ext.
Qed.

Lemma raw_colliding_pairs (st : list (row A)) :
  zip (raw_colliding radius st).1 (raw_colliding radius st).2
  = List.filter (near radius st) (all_pairs (length st)).
Proof.
  unfold raw_colliding. cbn zeta. cbn [fst snd].
  rewrite compress_zip, triu_indices_pairs, pdist_pairs.
  rewrite <- list_fmap_compose. apply compress_fmap.
Qed.

Lemma raw_colliding_length (st : list (row A)) :
  length (raw_colliding radius st).1 = length (raw_colliding radius st).2.
Proof.
  unfold raw_colliding. cbn zeta. cbn [fst snd].
  generalize (triu_indices_length (length st)).
  generalize ((λ d, d <=? ntwo * radius) <$> pdist st).
  generalize (triu_indices (length st)).1 (triu_indices (length st)).2.
  intros l k m. revert l k. induction m as [|b m IH]; intros [|x l] [|y k]; simpl; try done.
  intros [= Hlen]. destruct b; simpl; auto.
Qed.
End Detect.

(** ** The three-stage reduction *)

Lemma existsb_eqb x (l : list nat) : existsb (Nat.eqb x) l = true ↔ x ∈ l.
Proof.
  rewrite existsb_exists, list_elem_of_In. split.
  - by intros (y & Hy & ->%Nat.eqb_eq).
  - intros Hx. exists x. by rewrite Nat.eqb_refl.
Qed.

Lemma existsb_eqb_false x (l : list nat) : existsb (Nat.eqb x) l = false ↔ x ∉ l.
Proof. rewrite <- existsb_eqb. by destruct (existsb _ l). Qed.

Lemma first_occ_cons_eq key p ps : first_occ key (p :: ps) p.
Proof. exists 0. split; [done|]. intros; lia. Qed.

Lemma first_occ_cons_ne key p0 ps p :
  key p0 ≠ key p → first_occ key (p0 :: ps) p ↔ first_occ key ps p.
Proof.
  intros Hne. split.
  - intros ([|k] & Hk & Hmin); [by simplify_eq/=|].
    exists k. split; [done|]. intros k' q Hlt. apply (Hmin (S k')). lia.
  - intros (k & Hk & Hmin). exists (S k). split; [done|].
    intros [|k'] q Hlt; simpl; [by intros [= ->]|]. apply Hmin. lia.
Qed.

Lemma first_occ_cons_inv key p0 ps p :
  first_occ key (p0 :: ps) p → p = p0 ∨ (key p0 ≠ key p ∧ first_occ key ps p).
Proof.
  intros ([|k] & Hk & Hmin); [left; by simplify_eq /=|]. right.
  assert (key p0 ≠ key p) as Hne by (apply (Hmin 0); [lia|done]).
  split; [done|]. apply (first_occ_cons_ne key p0); [done|]. by exists (S k).
Qed.

Lemma first_per_elem key seen ps p :
  p ∈ first_per key seen ps ↔ (key p ∉ seen) ∧ first_occ key ps p.
Proof.
  revert seen. induction ps as [|p0 t IH]; intros seen; simpl.
  - split; [by intros ?%elem_of_nil|]. by intros [_ (k & Hk & _)].
  - destruct (existsb (Nat.eqb (key p0)) seen) eqn:E.
    + apply existsb_eqb in E. rewrite IH. split.
      * intros [Hp Hocc]. split; [done|].
        apply first_occ_cons_ne; [congruence|done].
      * intros [Hp [->|[_ Hocc]]%first_occ_cons_inv]; done.
    + apply existsb_eqb_false in E. rewrite elem_of_cons, IH. split.
      * intros [->|[Hp Hocc]]; [split; [done|apply first_occ_cons_eq]|].
        apply not_elem_of_cons in Hp as [Hne Hp]. split; [done|].
        apply first_occ_cons_ne; [congruence|done].
      * intros [Hp [->|[Hne Hocc]]%first_occ_cons_inv]; [by left|right].
        split; [|done]. apply not_elem_of_cons. split; [congruence|done].
Qed.

Lemma first_index_unique x ar k :
  ar !! k = Some x → (∀ k' y, k' < k → ar !! k' = Some y → y ≠ x) →
  first_index x ar = k.
Proof.
  intros Hk Hmin.
  assert (x ∈ ar) as Hin by (by eapply list_elem_of_lookup_2).
  destruct (Nat.lt_trichotomy (first_index x ar) k) as [Hlt|[Heq|Hgt]]; [|done|].
  - exfalso. apply (Hmin _ x Hlt); [by apply first_index_lookup|done].
  - exfalso. by apply (first_index_least x ar k x Hgt Hk).
Qed.

Lemma first_occ_index key ps p d :
  first_occ key ps p → nth (first_index (key p) (key <$> ps)) ps d = p.
Proof.
  intros (k & Hk & Hmin).
  rewrite (first_index_unique (key p) (key <$> ps) k).
  - by apply nth_lookup_Some.
  - by rewrite list_lookup_fmap, Hk.
  - intros k' y Hlt. rewrite list_lookup_fmap.
    destruct (ps !! k') as [q|] eqn:Hq; [|done]. intros [= <-]. by eapply Hmin.
Qed.

Lemma take_first_elem key (ps : list (nat * nat)) d p :
  p ∈ take_idx d (np_unique (key <$> ps)).2 ps ↔ first_occ key ps p.
Proof.
  unfold take_idx, np_unique. cbn [snd]. rewrite <- list_fmap_compose.
  rewrite list_elem_of_fmap. split.
  - intros (x & -> & Hx). apply (proj1 (sort_uniq_elem _ _)) in Hx.
    pose proof (first_index_lookup _ _ Hx) as Hfi.
    apply list_lookup_fmap_Some in Hfi as (q & Hkey & Hq). simpl.
    rewrite (nth_lookup_Some _ _ _ _ Hq). eexists. split; [exact Hq|].
    intros k' q' Hlt Hq'. rewrite <- Hkey.
    eapply first_index_least; [exact Hlt|]. by rewrite list_lookup_fmap, Hq'.
  - intros Hocc. exists (key p). simpl. rewrite first_occ_index by done.
    split; [done|]. apply sort_uniq_elem.
    destruct Hocc as (k & Hk & _). apply list_elem_of_fmap. exists p.
    split; [done|]. by eapply list_elem_of_lookup_2.
Qed.

(** Sortedness *)
Lemma StronglySorted_sublist {B} (R : relation B) (l1 l2 : list B) :
  l1 `sublist_of` l2 → StronglySorted R l2 → StronglySorted R l1.
Proof.
  induction 1 as [|x l1 l2 Hsub IH|x l1 l2 Hsub IH]; intros Hs.
  - constructor.
  - apply StronglySorted_cons in Hs as [Hall Hs]. constructor; [by apply IH|].
    apply Forall_forall. intros y Hy. eapply Forall_forall in Hall; [done|].
    by eapply elem_of_sublist.
  - apply StronglySorted_cons in Hs as [_ Hs]. by apply IH.
Qed.

Lemma sorted_le_NoDup_lt (l : list nat) :
  StronglySorted le l → NoDup l → StronglySorted lt l.
Proof.
  induction 1 as [|x l Hs IH Hall]; intros Hnd; [constructor|].
  apply NoDup_cons in Hnd as [Hx Hnd]. constructor; [by apply IH|].
  apply Forall_forall. intros y Hy. eapply Forall_forall in Hall; [|exact Hy].
  assert (x ≠ y) by (by intros ->). simpl in *. lia.
Qed.

Lemma sorted_lt_unique (l1 l2 : list nat) :
  StronglySorted lt l1 → StronglySorted lt l2 → (∀ x, x ∈ l1 ↔ x ∈ l2) → l1 = l2.
Proof.
  intros H1 H2 Hel. apply (StronglySorted_unique_strong lt); [intros; lia|done..|].
  apply NoDup_Permutation; [by apply sorted_lt_NoDup..|done].
Qed.

Lemma bind_replicate_sorted (c : nat → nat) a m :
  StronglySorted le (seq a m ≫= λ i, replicate (c i) i).
Proof.
  revert a. induction m as [|m IH]; intros a; [constructor|].
  simpl seq. rewrite bind_cons. apply StronglySorted_app_2; [| |apply IH].
  - intros x y ->%elem_of_replicate_inv (i & ->%elem_of_replicate_inv & Hi)%list_elem_of_bind.
    apply elem_of_seq in Hi. lia.
  - induction (c a) as [|k IHk]; simpl; [constructor|].
    constructor; [done|]. apply Forall_forall. by intros y ->%elem_of_replicate_inv.
Qed.

Lemma triu_rows_sorted n : StronglySorted le (triu_indices n).1.
Proof. apply bind_replicate_sorted. Qed.

Lemma first_per_sublist key seen ps : first_per key seen ps `sublist_of` ps.
Proof.
  revert seen. induction ps as [|p t IH]; intros seen; simpl; [done|].
  destruct (existsb _ seen); [by apply sublist_cons|by apply sublist_skip].
Qed.

Lemma first_per_keys_NoDup key seen ps : NoDup (key <$> first_per key seen ps).
Proof.
  revert seen. induction ps as [|p t IH]; intros seen; simpl; [constructor|].
  destruct (existsb _ seen); [done|]. csimpl. constructor; [|done].
  intros (q & Hq & [Hns _]%first_per_elem)%list_elem_of_fmap.
  apply Hns. rewrite Hq. by left.
Qed.

Lemma take_first_sorted key (ps : list (nat * nat)) d :
  StronglySorted le (key <$> ps) →
  take_idx d (np_unique (key <$> ps)).2 ps = first_per key [] ps.
Proof.
  intros Hs. unfold take_idx, np_unique. cbn [snd]. rewrite <- list_fmap_compose.
  assert (sort_uniq (key <$> ps) = key <$> first_per key [] ps) as ->.
  { apply sorted_lt_unique; [apply sort_uniq_sorted| |].
    - apply sorted_le_NoDup_lt; [|apply first_per_keys_NoDup].
      eapply StronglySorted_sublist; [|exact Hs].
      apply fmap_sublist, first_per_sublist.
    - intros x. rewrite sort_uniq_elem, !list_elem_of_fmap. split.
      + intros (q & -> & Hq).
        assert (key q ∈ key <$> ps) as Hin by (by apply list_elem_of_fmap_2).
        pose proof (first_index_lookup _ _ Hin) as Hfi.
        apply list_lookup_fmap_Some in Hfi as (q' & Hkey & Hq').
        exists q'. split; [done|]. apply first_per_elem. split; [apply not_elem_of_nil|].
        eexists. split; [exact Hq'|]. intros k' q'' Hlt Hq''. rewrite <- Hkey.
        eapply first_index_least; [exact Hlt|]. by rewrite list_lookup_fmap, Hq''.
      + intros (q & -> & Hq). exists q. split; [done|].
        eapply elem_of_sublist; [exact Hq|apply first_per_sublist]. }
  rewrite <- list_fmap_compose. rewrite <- (list_fmap_id (first_per key [] ps)) at 2.
  apply list_fmap_ext. intros i q Hq. simpl. apply first_occ_index.
  apply list_elem_of_lookup_2 in Hq. by apply first_per_elem in Hq as [_ ?].
Qed.

(** Parallel arrays *)
Lemma nth_zip {B C} (l : list B) (k : list C) i d e :
  length l = length k → nth i (zip l k) (d, e) = (nth i l d, nth i k e).
Proof.
  revert k i. induction l as [|x l IH]; intros [|y k] [|i] Hlen; simplify_eq /=; auto.
Qed.

Lemma take_idx_zip {B C} (d : B) (e : C) m l k :
  length l = length k →
  zip (take_idx d m l) (take_idx e m k) = take_idx (d, e) m (zip l k).
Proof.
  intros Hlen. unfold take_idx. induction m as [|i m IH]; [done|].
  csimpl. by rewrite IH, nth_zip.
Qed.

Lemma filter_sublist {B} (f : B → bool) l : List.filter f l `sublist_of` l.
Proof.
  induction l as [|x l IH]; simpl; [done|].
  destruct (f x); [by apply sublist_skip|by apply sublist_cons].
Qed.

Lemma filter_elem {B} (f : B → bool) l x : x ∈ List.filter f l ↔ x ∈ l ∧ f x = true.
Proof. by rewrite !list_elem_of_In, filter_In. Qed.

Lemma compress_length_eq {B C} m (l : list B) (k : list C) :
  length l = length k → length (compress m l) = length (compress m k).
Proof.
  revert l k. induction m as [|b m IH]; intros [|x l] [|y k]; simpl; try done.
  intros [= Hlen]. destruct b; simpl; auto.
Qed.

Lemma distinct_length c1 c2 :
  length (distinct c1 c2).1 = length (distinct c1 c2).2.
Proof.
  unfold distinct. cbn zeta. cbn [fst snd].
  apply compress_length_eq. by rewrite !length_take_idx.
Qed.

Lemma distinct_elem c1 c2 p :
  length c1 = length c2 → StronglySorted le c1 →
  p ∈ zip (distinct c1 c2).1 (distinct c1 c2).2 ↔ p ∈ spec_distinct (zip c1 c2).
Proof.
  intros Hlen Hs. unfold distinct, spec_distinct. cbn zeta. cbn [fst snd].
  set (a1 := take_idx 0 (np_unique c1).2 c1).
  set (b1 := take_idx 0 (np_unique c1).2 c2).
  set (a2 := take_idx 0 (np_unique b1).2 a1).
  set (b2 := take_idx 0 (np_unique b1).2 b1).
  set (s1 := first_per fst [] (zip c1 c2)).
  set (s2 := first_per snd [] s1).
  assert (Hlen1 : length a1 = length b1) by (unfold a1, b1; by rewrite !length_take_idx).
  assert (Hlen2 : length a2 = length b2) by (unfold a2, b2; by rewrite !length_take_idx).
  assert (H1 : zip a1 b1 = s1).
  { unfold a1, b1, s1. rewrite take_idx_zip by done.
    rewrite <- (fst_zip c1 c2) at 1 by lia.
    apply take_first_sorted. by rewrite fst_zip by lia. }
  assert (H2 : ∀ q, q ∈ zip a2 b2 ↔ q ∈ s2).
  { intros q. unfold a2, b2, s2. rewrite take_idx_zip by done.
    rewrite <- (snd_zip a1 b1) at 1 by lia. rewrite H1.
    rewrite take_first_elem, first_per_elem. split; [|by intros [_ ?]].
    intros Hq. split; [apply not_elem_of_nil|done]. }
  rewrite compress_zip. unfold in1d_invert.
  rewrite <- (fst_zip a2 b2) at 1 by lia. rewrite <- list_fmap_compose.
  rewrite compress_fmap, !filter_elem, H2. simpl.
  rewrite <- (snd_zip a2 b2) at 1 by lia.
  apply and_iff_compat_l. rewrite !negb_true_iff, !existsb_eqb_false.
  rewrite !list_elem_of_fmap. by setoid_rewrite H2.
Qed.

Lemma zip_NoDup_l {B C} (l : list B) (k : list C) : NoDup l → NoDup (zip l k).
Proof.
  intros Hl. apply (NoDup_fmap_1 fst). eapply sublist_NoDup; [exact Hl|].
  clear Hl. revert k. induction l as [|x l IH]; intros [|y k]; csimpl;
    try apply sublist_nil_l.
  apply sublist_skip, IH.
Qed.

Lemma spec_distinct_NoDup ps : NoDup (spec_distinct ps).
Proof.
  unfold spec_distinct. eapply sublist_NoDup; [|apply filter_sublist].
  apply (NoDup_fmap_1 snd), first_per_keys_NoDup.
Qed.

Section Matching.
Context {A : Type} `{Num A}.
Variable radius : A.

Lemma spec_matching_eq (st : list (row A)) :
  spec_matching radius st
  = spec_distinct (zip (raw_colliding radius st).1 (raw_colliding radius st).2).
Proof. by rewrite raw_colliding_pairs. Qed.

Lemma raw_colliding_sorted (st : list (row A)) :
  StronglySorted le (raw_colliding radius st).1.
Proof.
  eapply StronglySorted_sublist; [apply compress_sublist|apply triu_rows_sorted].
Qed.

Lemma collide_eq (st : list (row A)) :
  collide radius st
  = distinct (raw_colliding radius st).1 (raw_colliding radius st).2.
Proof. unfold collide. by destruct (raw_colliding radius st). Qed.

Lemma collide_elem (st : list (row A)) p :
  p ∈ zip (collide radius st).1 (collide radius st).2 ↔
  p ∈ spec_matching radius st.
Proof.
  rewrite collide_eq, spec_matching_eq.
  apply distinct_elem; [apply raw_colliding_length|apply raw_colliding_sorted].
Qed.
End Matching.

(** ** Scatter assignments and [resolve] *)

Section Resolve.
Context {A : Type} `{Num A}.
Variable radius : A.
Implicit Types (st : list (row A)) (f : A * A → row A → row A).

Lemma scatter_length f idx vals st : length (scatter f idx vals st) = length st.
Proof.
  revert vals st. induction idx as [|i idx IH]; intros [|v vals] st; simpl; try done.
  by rewrite IH, length_alter.
Qed.

Lemma scatter_lookup_notin f idx vals st i :
  i ∉ idx → scatter f idx vals st !! i = st !! i.
Proof.
  revert vals st. induction idx as [|j idx IH]; intros [|v vals] st Hi; simpl; try done.
  apply not_elem_of_cons in Hi as [Hne Hi].
  rewrite IH by done. by apply list_lookup_alter_ne.
Qed.

Lemma scatter_lookup_in f idx vals st k i v :
  NoDup idx → idx !! k = Some i → vals !! k = Some v →
  scatter f idx vals st !! i = f v <$> st !! i.
Proof.
  revert vals st k. induction idx as [|j idx IH]; intros [|w vals] st k Hnd Hi Hv;
    try done.
  apply NoDup_cons in Hnd as [Hj Hnd]. destruct k as [|k]; simplify_eq /=.
  - rewrite scatter_lookup_notin by done. apply list_lookup_alter_eq.
  - rewrite (IH _ _ k) by done. rewrite list_lookup_alter_ne; [done|].
    intros ->. apply Hj. by eapply list_elem_of_lookup_2.
Qed.

Lemma take_idx_lookup {B} (d : B) idx (l : list B) k i x :
  idx !! k = Some i → l !! i = Some x → take_idx d idx l !! k = Some x.
Proof.
  intros Hk Hi. unfold take_idx. rewrite list_lookup_fmap, Hk. simpl.
  by rewrite (nth_lookup_Some _ _ _ _ Hi).
Qed.

Lemma resolve_lookup_pair c1 c2 st k a b ra rb :
  NoDup (c1 ++ c2) →
  c1 !! k = Some a → c2 !! k = Some b →
  st !! a = Some ra → st !! b = Some rb →
  resolve radius c1 c2 st !! a = Some (resolved_1 radius ra rb) ∧
  resolve radius c1 c2 st !! b = Some (resolved_2 radius ra rb).
Proof.
  intros Hnd Ha Hb Hra Hrb.
  apply NoDup_app in Hnd as (Hnd1 & Hdisj & Hnd2).
  assert (a ∉ c2) as Ha2 by (by eapply Hdisj, list_elem_of_lookup_2).
  assert (b ∉ c1) as Hb1.
  { intros Hin. eapply Hdisj; [exact Hin|]. by eapply list_elem_of_lookup_2. }
  unfold resolve. destruct c1 as [|a0 c1']; [done|]. cbn zeta.
  set (c1 := a0 :: c1') in *.
  set (rows_1 := take_idx row0 c1 st). set (rows_2 := take_idx row0 c2 st).
  assert (rows_1 !! k = Some ra) as Hr1 by (by eapply take_idx_lookup).
  assert (rows_2 !! k = Some rb) as Hr2 by (by eapply take_idx_lookup).
  assert (∀ {C} (g : row A → row A → C), zip_with g rows_1 rows_2 !! k = Some (g ra rb)) as Hz.
  { intros C g. by rewrite lookup_zip_with, Hr1, Hr2. }
  split.
  - rewrite (scatter_lookup_notin _ c2) by done.
    rewrite (scatter_lookup_in _ c1 _ _ k a (new_pos_1 radius ra rb)) by done.
    rewrite (scatter_lookup_notin _ c2) by done.
    rewrite (scatter_lookup_in _ c1 _ _ k a (new_vel_1 ra rb)) by done.
    by rewrite Hra.
  - rewrite (scatter_lookup_in _ c2 _ _ k b (new_pos_2 radius ra rb)) by done.
    rewrite (scatter_lookup_notin _ c1) by done.
    rewrite (scatter_lookup_in _ c2 _ _ k b (new_vel_2 ra rb)) by done.
    rewrite (scatter_lookup_notin _ c1) by done.
    by rewrite Hrb.
Qed.

Lemma resolve_length c1 c2 st : length (resolve radius c1 c2 st) = length st.
Proof.
  unfold resolve. destruct c1; [done|]. cbn zeta. by rewrite !scatter_length.
Qed.
End Resolve.

(** ** Arithmetic on the exact reals *)

Local Open Scope R_scope.

Lemma xadd_fin x y : (Fin x + Fin y)%num = Fin (x + y).
Proof. done. Qed.
Lemma xsub_fin x y : (Fin x - Fin y)%num = Fin (x - y).
Proof. done. Qed.
Lemma xmul_fin x y : (Fin x * Fin y)%num = Fin (x * y).
Proof. done. Qed.
Lemma xneg_fin x : (- Fin x)%num = Fin (- x).
Proof. done. Qed.
Lemma xtwo_fin : ntwo = Fin 2.
Proof. done. Qed.
Lemma xone_fin : none = Fin 1.
Proof. done. Qed.
Lemma xhalf_fin : nhalf = Fin (1 / 2).
Proof. done. Qed.

Lemma xsqrt_fin x : 0 <= x → nsqrt (Fin x) = Fin (R_sqrt.sqrt x).
Proof. intros Hx. simpl. destruct (Rlt_dec x 0); [lra|done]. Qed.

Lemma xdiv_fin x y : y ≠ 0 → (Fin x / Fin y)%num = Fin (x / y).
Proof. intros Hy. simpl. by destruct (Req_dec_T y 0). Qed.

Lemma xdiv_zero x : (Fin x / Fin 0)%num = NaN.
Proof. simpl. by destruct (Req_dec_T 0 0). Qed.

Lemma xleb_fin x y : (Fin x <=? Fin y)%num = true ↔ x <= y.
Proof. simpl. destruct (Rle_dec x y); split; (done || lra). Qed.

Lemma xleb_fin_false x y : (Fin x <=? Fin y)%num = false ↔ y < x.
Proof. simpl. destruct (Rle_dec x y); split; (done || lra). Qed.

Lemma xltb_fin x y : (Fin x <? Fin y)%num = true ↔ x < y.
Proof. simpl. destruct (Rlt_dec x y); split; (done || lra). Qed.

Lemma xltb_fin_false x y : (Fin x <? Fin y)%num = false ↔ y <= x.
Proof. simpl. destruct (Rlt_dec x y); split; (done || lra). Qed.

Lemma sum_sqr_nonneg x y : 0 <= x * x + y * y.
Proof. nra. Qed.

Create Rewrite HintDb xreal.
#[export] Hint Rewrite xadd_fin xsub_fin xmul_fin xneg_fin xtwo_fin xone_fin xhalf_fin : xreal.
#[export] Hint Rewrite xsqrt_fin using (apply sum_sqr_nonneg) : xreal.

Section Collision.
Variables (xa ya ua va xb yb ub vb : R).
Let dx := xb - xa.
Let dy := yb - ya.
Let n := R_sqrt.sqrt (dx * dx + dy * dy).
Let s := (ua - ub) * dx + (va - vb) * dy.
Let ra := fin_row xa ya ua va.
Let rb := fin_row xb yb ub vb.
Hypothesis Hn : 0 < n.

Lemma new_vel_1_fin :
  new_vel_1 ra rb = (Fin (ua - s / (n * n) * dx), Fin (va - s / (n * n) * dy)).
Proof using Hn.
  unfold new_vel_1, ra, rb, fin_row. cbn [px py vx vy fst snd].
  autorewrite with xreal. fold dx dy n s.
  rewrite xdiv_fin by nra. by autorewrite with xreal.
Qed.

Lemma new_vel_2_fin :
  new_vel_2 ra rb = (Fin (ub + s / (n * n) * dx), Fin (vb + s / (n * n) * dy)).
Proof using Hn.
  unfold new_vel_2, ra, rb, fin_row. cbn [px py vx vy fst snd].
  autorewrite with xreal. fold dx dy n s.
  rewrite xdiv_fin by nra. by autorewrite with xreal.
Qed.

Variable r : R.
Let c := 1 / 2 * (2 * r / n - 1).

Lemma new_pos_1_fin :
  new_pos_1 (Fin r) ra rb = (Fin (xa - c * dx), Fin (ya - c * dy)).
Proof using Hn.
  unfold new_pos_1, ra, rb, fin_row. cbn [px py vx vy fst snd].
  autorewrite with xreal. fold dx dy n.
  rewrite xdiv_fin by lra. by autorewrite with xreal.
Qed.

Lemma new_pos_2_fin :
  new_pos_2 (Fin r) ra rb = (Fin (xb + c * dx), Fin (yb + c * dy)).
Proof using Hn.
  unfold new_pos_2, ra, rb, fin_row. cbn [px py vx vy fst snd].
  autorewrite with xreal. fold dx dy n.
  rewrite xdiv_fin by lra. by autorewrite with xreal.
Qed.

Lemma norm_sqr : n * n = dx * dx + dy * dy.
Proof. apply sqrt_sqrt, sum_sqr_nonneg. Qed.

Lemma momentum_sum : (ua - s / (n * n) * dx) + (ub + s / (n * n) * dx) = ua + ub.
Proof. ring. Qed.

Lemma elastic_energy :
  let ua' := ua - s / (n * n) * dx in let va' := va - s / (n * n) * dy in
  let ub' := ub + s / (n * n) * dx in let vb' := vb + s / (n * n) * dy in
  ua' * ua' + va' * va' + (ub' * ub' + vb' * vb')
  = ua * ua + va * va + (ub * ub + vb * vb).
Proof using Hn.
  intros ua' va' ub' vb'. subst ua' va' ub' vb'.
  set (k := s / (n * n)).
  assert (Hk : k * (dx * dx + dy * dy) = s).
  { unfold k. rewrite <- norm_sqr. field. lra. }
  apply Rminus_diag_uniq.
  transitivity (2 * k * (k * (dx * dx + dy * dy) - s)); [unfold s; ring|].
  rewrite Hk. ring.
Qed.

Lemma contact_separation :
  0 <= r →
  let xa' := xa - c * dx in let ya' := ya - c * dy in
  let xb' := xb + c * dx in let yb' := yb + c * dy in
  R_sqrt.sqrt ((xb' - xa') * (xb' - xa') + (yb' - ya') * (yb' - ya')) = 2 * r.
Proof using Hn.
  intros Hr xa' ya' xb' yb'. subst xa' ya' xb' yb'.
  replace (_ + _) with ((2 * r) * (2 * r)); [apply sqrt_square; lra|].
  transitivity ((2 * r / n) * (2 * r / n) * (n * n)); [field; lra|].
  rewrite norm_sqr. unfold c, dx, dy. field. lra.
Qed.
End Collision.

Lemma sqrt_eq a b : 0 <= b → a = b * b → R_sqrt.sqrt a = b.
Proof. intros Hb ->. by apply sqrt_square. Qed.

Lemma xleb_true x y : x <= y → (Fin x <=? Fin y)%num = true.
Proof. apply xleb_fin. Qed.
Lemma xleb_false x y : y < x → (Fin x <=? Fin y)%num = false.
Proof. apply xleb_fin_false. Qed.
Lemma xltb_true x y : x < y → (Fin x <? Fin y)%num = true.
Proof. apply xltb_fin. Qed.
Lemma xltb_false x y : y <= x → (Fin x <? Fin y)%num = false.
Proof. apply xltb_fin_false. Qed.

Ltac fin_eq :=
  repeat match goal with
    | |- Fin _ = Fin _ => f_equal; first [lra | ring | field; lra]
    | |- Row _ _ _ _ = Row _ _ _ _ => f_equal
    | |- _ :: _ = _ :: _ => f_equal
    | |- Some _ = Some _ => f_equal
    | |- (_, _) = (_, _) => f_equal
    end; try done.

Ltac xreal_norm :=
  cbn [px py vx vy fst snd get_col set_col Nat.add]; autorewrite with xreal.

Lemma head_on_collide : collide (Fin 3) head_on = ([0%nat], [1%nat]).
Proof.
  unfold collide, raw_colliding, head_on, fin_row.
  cbn [pdist fmap list_fmap app length]. unfold euclidean. xreal_norm.
  rewrite (sqrt_eq _ 6) by lra. rewrite xleb_true by lra.
  reflexivity.
Qed.

(** ** The wall loop *)

Section Rebound.
Context {A : Type} `{Num A}.
Local Open Scope num_scope.
Variables radius w h : A.
Implicit Types (st : list (row A)) (g : row A → bool) (f : row A → row A).

Lemma masked_fmap g f (k : row A → row A) st :
  masked (g <$> st) f (k <$> st) = (λ r, if g r then f (k r) else k r) <$> st.
Proof.
  unfold masked. induction st as [|r st IH]; [done|]. csimpl. by rewrite IH.
Qed.

Lemma existsb_fmap_false g st r :
  existsb (λ b : bool, b) (g <$> st) = false → r ∈ st → g r = false.
Proof.
  induction st as [|r0 st IH]; csimpl; [by intros _ ?%elem_of_nil|].
  intros [H1 H2]%orb_false_iff [->|Hin]%elem_of_cons; auto.
Qed.

Lemma guarded_masked g f1 f2 (k : row A → row A) st :
  (if existsb (λ b : bool, b) (g <$> st)
   then masked (g <$> st) f2 (masked (g <$> st) f1 (k <$> st))
   else k <$> st)
  = (λ r, if g r then f2 (f1 (k r)) else k r) <$> st.
Proof.
  destruct (existsb _ _) eqn:E.
  - rewrite masked_fmap.
    rewrite (masked_fmap g f2 (λ r, if g r then f1 (k r) else k r)).
    apply list_fmap_ext. intros _ r _. by destruct (g r).
  - apply list_fmap_ext. intros i r Hr.
    by rewrite (existsb_fmap_false g st r E) by (by eapply list_elem_of_lookup_2).
Qed.

Lemma guarded_masked_id g f1 f2 st :
  (if existsb (λ b : bool, b) (g <$> st)
   then masked (g <$> st) f2 (masked (g <$> st) f1 st)
   else st)
  = (λ r, if g r then f2 (f1 r) else r) <$> st.
Proof.
  pose proof (guarded_masked g f1 f2 Datatypes.id st) as Hg.
  by rewrite list_fmap_id in Hg.
Qed.

Lemma rebound_axis_fmap i size st :
  rebound_axis radius i size st = rebound_row radius i size <$> st.
Proof.
  unfold rebound_axis. cbn zeta.
  rewrite (guarded_masked_id (λ r, get_col i r <? radius)).
  rewrite (guarded_masked (λ r, get_col i r >? size - radius)).
  apply list_fmap_ext. intros _ r _. unfold rebound_row. simpl.
  by destruct (get_col i r <? radius).
Qed.

Lemma rebound_fmap st :
  rebound radius w h st = (rebound_row radius 1 h ∘ rebound_row radius 0 w) <$> st.
Proof.
  unfold rebound. rewrite !rebound_axis_fmap. by rewrite <- list_fmap_compose.
Qed.
End Rebound.

Lemma rebound_row_x rad size x y u v :
  2 * rad <= size →
  rebound_row (Fin rad) 0 (Fin size) (fin_row x y u v)
  = fin_row (reflect rad size x u).1 y (reflect rad size x u).2 v.
Proof.
  intros Hsz. unfold rebound_row, reflect, fin_row. xreal_norm.
  destruct (Rlt_dec x rad) as [Hlo|Hlo].
  - rewrite (xltb_true x rad), (xltb_false (size - rad) x) by lra.
    xreal_norm. fin_eq.
  - rewrite (xltb_false x rad) by lra.
    destruct (Rlt_dec (size - rad) x) as [Hhi|Hhi].
    + rewrite (xltb_true (size - rad) x) by lra. xreal_norm. fin_eq.
    + by rewrite (xltb_false (size - rad) x) by lra.
Qed.

Lemma rebound_row_y rad size x y u v :
  2 * rad <= size →
  rebound_row (Fin rad) 1 (Fin size) (fin_row x y u v)
  = fin_row x (reflect rad size y v).1 u (reflect rad size y v).2.
Proof.
  intros Hsz. unfold rebound_row, reflect, fin_row. xreal_norm.
  destruct (Rlt_dec y rad) as [Hlo|Hlo].
  - rewrite (xltb_true y rad), (xltb_false (size - rad) y) by lra.
    xreal_norm. fin_eq.
  - rewrite (xltb_false y rad) by lra.
    destruct (Rlt_dec (size - rad) y) as [Hhi|Hhi].
    + rewrite (xltb_true (size - rad) y) by lra. xreal_norm. fin_eq.
    + by rewrite (xltb_false (size - rad) y) by lra.
Qed.


(** ** Matched pairs are colliding pairs *)

Local Close Scope R_scope.

Section Near.
Context {A : Type} `{Num A}.
Variable radius : A.

Lemma spec_distinct_sublist ps : spec_distinct ps `sublist_of` ps.
Proof.
  unfold spec_distinct. etrans; [apply filter_sublist|].
  etrans; apply first_per_sublist.
Qed.

Lemma collide_near (st : list (row A)) a b :
  (a, b) ∈ zip (collide radius st).1 (collide radius st).2 →
  a < b < length st ∧ near radius st (a, b) = true.
Proof.
  rewrite collide_elem. intros Hin.
  pose proof (elem_of_sublist _ _ _ Hin
    (spec_distinct_sublist (spec_colliding radius st))) as Hraw.
  apply filter_elem in Hraw as [Hp Hnear]. by apply all_pairs_elem in Hp.
Qed.

Lemma collide_lookup (st : list (row A)) c1 c2 k a b :
  collide radius st = (c1, c2) → c1 !! k = Some a → c2 !! k = Some b →
  NoDup (c1 ++ c2) ∧ a < b < length st ∧ near radius st (a, b) = true.
Proof.
  intros Hc Ha Hb. split.
  - pose proof (distinct_NoDup (raw_colliding radius st).1
                  (raw_colliding radius st).2) as Hnd.
    by rewrite <- collide_eq, Hc in Hnd.
  - apply collide_near. rewrite Hc. cbn [fst snd].
    apply list_elem_of_lookup. exists k. by rewrite lookup_zip_with, Ha, Hb.
Qed.

Lemma collide_lt (st : list (row A)) :
  Forall (λ i, i < length st) ((collide radius st).1 ++ (collide radius st).2).
Proof.
  pose proof (distinct_length (raw_colliding radius st).1
                (raw_colliding radius st).2) as Hlen.
  rewrite <- collide_eq in Hlen.
  apply Forall_app. split; apply Forall_forall; intros x [k Hk]%list_elem_of_lookup.
  - destruct (lookup_lt_is_Some_2 (collide radius st).2 k) as [y Hy].
    { rewrite <- Hlen. by eapply lookup_lt_Some. }
    destruct (collide_near st x y) as [? _]; [|lia].
    apply list_elem_of_lookup. exists k. by rewrite lookup_zip_with, Hk, Hy.
  - destruct (lookup_lt_is_Some_2 (collide radius st).1 k) as [y Hy].
    { rewrite Hlen. by eapply lookup_lt_Some. }
    destruct (collide_near st y x) as [? _]; [|lia].
    apply list_elem_of_lookup. exists k. by rewrite lookup_zip_with, Hy, Hk.
Qed.

Lemma compress_all_false {B} (g : B → bool) (l : list B) {C} (k : list C) :
  (∀ x, x ∈ l → g x = false) → compress (g <$> l) k = [].
Proof.
  revert k. induction l as [|x l IH]; intros [|y k] Hg; csimpl; try done.
  rewrite (Hg x) by (by left). apply IH. intros z Hz. apply Hg. by right.
Qed.

Lemma collide_none (st : list (row A)) :
  (∀ p, p ∈ all_pairs (length st) → near radius st p = false) →
  collide radius st = ([], []).
Proof.
  intros Hfar. unfold collide, raw_colliding. cbn zeta.
  rewrite pdist_pairs, <- list_fmap_compose.
  by rewrite !(compress_all_false (_ ∘ _)) by done.
Qed.
End Near.

(** ** Resolved pairs over the exact reals *)

Local Open Scope R_scope.

Lemma near_fin radius xa ya ua va xb yb ub vb :
  (euclidean (fin_row xa ya ua va) (fin_row xb yb ub vb) <=? ntwo * radius)%num = true →
  ∃ r, radius = Fin r ∧
       R_sqrt.sqrt ((xb - xa) * (xb - xa) + (yb - ya) * (yb - ya)) <= 2 * r.
Proof.
  unfold euclidean, fin_row. xreal_norm. destruct radius as [r|]; [|done].
  xreal_norm. intros Hle%xleb_fin. exists r. split; [done|].
  replace ((xb - xa) * (xb - xa) + (yb - ya) * (yb - ya))
    with ((xa - xb) * (xa - xb) + (ya - yb) * (ya - yb)) by ring.
  done.
Qed.

Lemma resolve_pair_fin radius (st : list (row xreal)) c1 c2 k a b
    xa ya ua va xb yb ub vb :
  collide radius st = (c1, c2) → c1 !! k = Some a → c2 !! k = Some b →
  st !! a = Some (fin_row xa ya ua va) → st !! b = Some (fin_row xb yb ub vb) →
  let dx := xb - xa in
  let dy := yb - ya in
  let n := R_sqrt.sqrt (dx * dx + dy * dy) in
  let s := (ua - ub) * dx + (va - vb) * dy in
  0 < n →
  ∃ r, radius = Fin r ∧ n <= 2 * r ∧
    let c := 1 / 2 * (2 * r / n - 1) in
    resolve radius c1 c2 st !! a
    = Some (fin_row (xa - c * dx) (ya - c * dy)
                    (ua - s / (n * n) * dx) (va - s / (n * n) * dy)) ∧
    resolve radius c1 c2 st !! b
    = Some (fin_row (xb + c * dx) (yb + c * dy)
                    (ub + s / (n * n) * dx) (vb + s / (n * n) * dy)).
Proof.
  intros Hc Ha Hb Hra Hrb dx dy n s Hn.
  destruct (collide_lookup radius st c1 c2 k a b Hc Ha Hb) as (Hnd & Hlt & Hnear).
  unfold near, pair_dist in Hnear. cbn [fst snd] in Hnear.
  rewrite (nth_lookup_Some _ _ _ _ Hra), (nth_lookup_Some _ _ _ _ Hrb) in Hnear.
  apply near_fin in Hnear as (r & -> & Hle). exists r. split_and!; [done..|].
  intros c.
  destruct (resolve_lookup_pair (Fin r) c1 c2 st k a b _ _ Hnd Ha Hb Hra Hrb)
    as [-> ->].
  unfold resolved_1, resolved_2.
  rewrite new_vel_1_fin, new_vel_2_fin, new_pos_1_fin, new_pos_2_fin by done.
  done.
Qed.

(** ** Runs *)

Lemma integrate_zero (st : list (row xreal)) :
  Forall (λ r, ∃ x y u v, r = fin_row x y u v) st →
  integrate (Fin 0) st = st.
Proof.
  intros Hfin. unfold integrate.
  induction Hfin as [|r st (x & y & u & v & ->) _ IH]; csimpl; [done|].
  f_equal; [|exact IH]. unfold fin_row. xreal_norm. fin_eq.
Qed.

Lemma rebound_id rad wd ht (st : list (row xreal)) :
  Forall (λ r, ∃ x y u v, r = fin_row x y u v ∧
               rad <= x <= wd - rad ∧ rad <= y <= ht - rad) st →
  rebound (Fin rad) (Fin wd) (Fin ht) st = st.
Proof.
  intros Hin. rewrite rebound_fmap.
  induction Hin as [|r st (x & y & u & v & -> & Hx & Hy) _ IH]; csimpl; [done|].
  f_equal; [|exact IH]. rewrite rebound_row_x, rebound_row_y by lra. unfold reflect.
  destruct (Rlt_dec x rad); [lra|]. destruct (Rlt_dec (wd - rad) x); [lra|].
  destruct (Rlt_dec y rad); [lra|]. destruct (Rlt_dec (ht - rad) y); [lra|].
  done.
Qed.

Lemma head_on_step :
  step (Fin 3) (Fin 700) (Fin 700) (Fin 0) head_on
  = [fin_row 10 50 (-5) 0; fin_row 16 50 5 0].
Proof.
  unfold step. rewrite integrate_zero by (unfold head_on; repeat constructor; eauto 10).
  rewrite head_on_collide.
  assert (resolve (Fin 3) [0%nat] [1%nat] head_on
          = [fin_row 10 50 (-5) 0; fin_row 16 50 5 0]) as ->.
  { unfold resolve, take_idx, head_on. cbn [fmap list_fmap nth zip_with scatter].
    rewrite new_vel_1_fin, new_vel_2_fin, new_pos_1_fin, new_pos_2_fin
      by (rewrite (sqrt_eq _ 6); lra).
    rewrite !(sqrt_eq _ 6) by lra.
    cbn [alter list_alter]. unfold set_vel, set_pos, fin_row.
    cbn [px py vx vy fst snd]. fin_eq. }
  apply rebound_id. repeat constructor; do 4 eexists; (split; [reflexivity|lra]).
Qed.

Lemma overlap_collide : collide (Fin 3) overlap = ([0%nat], [1%nat]).
Proof.
  unfold collide, raw_colliding, overlap, fin_row.
  cbn [pdist fmap list_fmap app length]. unfold euclidean. xreal_norm.
  rewrite (sqrt_eq _ 0) by lra. rewrite xleb_true by lra.
  reflexivity.
Qed.

Lemma xdiv_by_zero x y : y = 0 → (Fin x / Fin y)%num = NaN.
Proof. intros ->. apply xdiv_zero. Qed.

Lemma overlap_step :
  step (Fin 3) (Fin 700) (Fin 700) (Fin 0) overlap = [nan_row; nan_row].
Proof.
  unfold step. rewrite integrate_zero by (unfold overlap; repeat constructor; eauto 10).
  rewrite overlap_collide.
  assert (resolve (Fin 3) [0%nat] [1%nat] overlap = [nan_row; nan_row]) as ->.
  { unfold resolve, take_idx, overlap. cbn [fmap list_fmap nth zip_with scatter].
    unfold new_vel_1, new_vel_2, new_pos_1, new_pos_2, fin_row. xreal_norm.
    rewrite !(sqrt_eq _ 0) by lra. xreal_norm.
    rewrite !xdiv_by_zero by lra. reflexivity. }
  reflexivity.
Qed.

(** * The claims *)

Local Close Scope R_scope.

(** C1. For every particle state, in the matching left by the three-stage
    filter each particle index appears in at most one surviving pair: the
    first indices followed by the second indices form a list without
    repetition, so no index is twice a first index, twice a second index,
    or a first index of one pair and a second index of another. *)
Theorem matching_each_index_once {A : Type} `{Num A} (radius : A)
    (particle_state : list (row A)) :
  NoDup ((collide radius particle_state).1 ++ (collide radius particle_state).2).
Proof. rewrite collide_eq. apply distinct_NoDup. Qed.

(** C5. For every particle state, the surviving pairs are, up to their
    order, the pairs of the reference definition: the colliding pairs
    [(i, j)], [i < j], enumerated with [i] ascending then [j] ascending,
    reduced by first pair per first index, first pair per second index, and
    removal of the pairs whose first index is a second index of a survivor
    of the second stage. *)
Theorem matching_is_reference {A : Type} `{Num A} (radius : A)
    (particle_state : list (row A)) :
  zip (collide radius particle_state).1 (collide radius particle_state).2
  ≡ₚ spec_matching radius particle_state.
Proof.
  apply NoDup_Permutation.
  - apply zip_NoDup_l. rewrite collide_eq.
    by destruct (proj1 (NoDup_app _ _) (distinct_NoDup
      (raw_colliding radius particle_state).1
      (raw_colliding radius particle_state).2)) as [? _].
  - apply spec_distinct_NoDup.
  - apply collide_elem.
Qed.

(** C10. The collision-resolution stage writes only to the particles of the
    matching: a row whose index is in no surviving pair is the same after
    [resolve] as before. *)
Theorem resolve_frame {A : Type} `{Num A} (radius : A)
    (particle_state : list (row A)) (i : nat) :
  i ∉ (collide radius particle_state).1 ++ (collide radius particle_state).2 →
  resolve radius (collide radius particle_state).1
          (collide radius particle_state).2 particle_state !! i
  = particle_state !! i.
Proof.
  intros [Hi1 Hi2]%not_elem_of_app. unfold resolve.
  destruct (collide radius particle_state).1 as [|a0 c1']; [done|]. cbn zeta.
  by rewrite !scatter_lookup_notin.
Qed.

Lemma bystander_collide :
  collide 3%float bystander_f64 = ([0], [1]).
Proof. vm_compute. reflexivity. Qed.

Lemma resolve_frame_witness :
  resolve 3%float (collide 3%float bystander_f64).1
          (collide 3%float bystander_f64).2 bystander_f64 !! 2
  = bystander_f64 !! 2.
Proof.
  apply (resolve_frame 3%float bystander_f64 2).
  rewrite bystander_collide. cbn [fst snd app].
  intros Hin. apply elem_of_cons in Hin as [Hin|Hin]; [discriminate|].
  apply elem_of_cons in Hin as [Hin|Hin]; [discriminate|].
  by apply elem_of_nil in Hin.
Defined.

Local Open Scope R_scope.

(** C2. For every pair [(a, b)] of the matching whose rows hold real
    numbers and whose centres are a distance [n > 0] apart, the velocities
    written by [resolve] have the same sum as the velocities before. *)
Theorem resolve_conserves_momentum radius (particle_state : list (row xreal))
    colliding_1 colliding_2 k a b xa ya ua va xb yb ub vb :
  collide radius particle_state = (colliding_1, colliding_2) →
  colliding_1 !! k = Some a → colliding_2 !! k = Some b →
  particle_state !! a = Some (fin_row xa ya ua va) →
  particle_state !! b = Some (fin_row xb yb ub vb) →
  0 < R_sqrt.sqrt ((xb - xa) * (xb - xa) + (yb - ya) * (yb - ya)) →
  ∃ ra' rb',
    resolve radius colliding_1 colliding_2 particle_state !! a = Some ra' ∧
    resolve radius colliding_1 colliding_2 particle_state !! b = Some rb' ∧
    (vx ra' + vx rb')%num = Fin (ua + ub) ∧
    (vy ra' + vy rb')%num = Fin (va + vb).
Proof.
  intros Hc Ha Hb Hra Hrb Hn.
  destruct (resolve_pair_fin radius particle_state colliding_1 colliding_2
              k a b xa ya ua va xb yb ub vb Hc Ha Hb Hra Hrb Hn)
    as (r & -> & Hle & Ha' & Hb').
  eexists _, _. split_and!; [exact Ha'|exact Hb'|..];
    unfold fin_row; xreal_norm; fin_eq.
Qed.

Lemma resolve_conserves_momentum_witness :
  ∃ ra' rb',
    resolve (Fin 3) [0%nat] [1%nat] head_on !! 0%nat = Some ra' ∧
    resolve (Fin 3) [0%nat] [1%nat] head_on !! 1%nat = Some rb' ∧
    (vx ra' + vx rb')%num = Fin (5 + -5) ∧
    (vy ra' + vy rb')%num = Fin (0 + 0).
Proof.
  apply (resolve_conserves_momentum (Fin 3) head_on [0%nat] [1%nat] 0 0 1
           10 50 5 0 16 50 (-5) 0);
    [apply head_on_collide|reflexivity..|rewrite (sqrt_eq _ 6); lra].
Defined.

(** C3. For every such pair the velocities written by [resolve] have the
    same sum of squared norms as the velocities before. *)
Theorem resolve_conserves_energy radius (particle_state : list (row xreal))
    colliding_1 colliding_2 k a b xa ya ua va xb yb ub vb :
  collide radius particle_state = (colliding_1, colliding_2) →
  colliding_1 !! k = Some a → colliding_2 !! k = Some b →
  particle_state !! a = Some (fin_row xa ya ua va) →
  particle_state !! b = Some (fin_row xb yb ub vb) →
  0 < R_sqrt.sqrt ((xb - xa) * (xb - xa) + (yb - ya) * (yb - ya)) →
  ∃ ra' rb',
    resolve radius colliding_1 colliding_2 particle_state !! a = Some ra' ∧
    resolve radius colliding_1 colliding_2 particle_state !! b = Some rb' ∧
    (vx ra' * vx ra' + vy ra' * vy ra'
     + (vx rb' * vx rb' + vy rb' * vy rb'))%num
    = Fin (ua * ua + va * va + (ub * ub + vb * vb)).
Proof.
  intros Hc Ha Hb Hra Hrb Hn.
  destruct (resolve_pair_fin radius particle_state colliding_1 colliding_2
              k a b xa ya ua va xb yb ub vb Hc Ha Hb Hra Hrb Hn)
    as (r & -> & Hle & Ha' & Hb').
  eexists _, _. split_and!; [exact Ha'|exact Hb'|].
  unfold fin_row. xreal_norm. f_equal.
  by apply (elastic_energy xa ya ua va xb yb ub vb).
Qed.

Lemma resolve_conserves_energy_witness :
  ∃ ra' rb',
    resolve (Fin 3) [0%nat] [1%nat] head_on !! 0%nat = Some ra' ∧
    resolve (Fin 3) [0%nat] [1%nat] head_on !! 1%nat = Some rb' ∧
    (vx ra' * vx ra' + vy ra' * vy ra'
     + (vx rb' * vx rb' + vy rb' * vy rb'))%num
    = Fin (5 * 5 + 0 * 0 + (-5 * -5 + 0 * 0)).
Proof.
  apply (resolve_conserves_energy (Fin 3) head_on [0%nat] [1%nat] 0 0 1
           10 50 5 0 16 50 (-5) 0);
    [apply head_on_collide|reflexivity..|rewrite (sqrt_eq _ 6); lra].
Defined.

(** C7. For every such pair the positions written by [resolve] are exactly
    [2 * radius] apart, and their midpoint is the midpoint of the positions
    before. *)
Theorem resolve_separates_to_contact radius (particle_state : list (row xreal))
    colliding_1 colliding_2 k a b xa ya ua va xb yb ub vb :
  collide radius particle_state = (colliding_1, colliding_2) →
  colliding_1 !! k = Some a → colliding_2 !! k = Some b →
  particle_state !! a = Some (fin_row xa ya ua va) →
  particle_state !! b = Some (fin_row xb yb ub vb) →
  0 < R_sqrt.sqrt ((xb - xa) * (xb - xa) + (yb - ya) * (yb - ya)) →
  ∃ ra' rb',
    resolve radius colliding_1 colliding_2 particle_state !! a = Some ra' ∧
    resolve radius colliding_1 colliding_2 particle_state !! b = Some rb' ∧
    euclidean ra' rb' = (ntwo * radius)%num ∧
    (nhalf * (px ra' + px rb'))%num = Fin ((xa + xb) / 2) ∧
    (nhalf * (py ra' + py rb'))%num = Fin ((ya + yb) / 2).
Proof.
  intros Hc Ha Hb Hra Hrb Hn.
  destruct (resolve_pair_fin radius particle_state colliding_1 colliding_2
              k a b xa ya ua va xb yb ub vb Hc Ha Hb Hra Hrb Hn)
    as (r & -> & Hle & Ha' & Hb').
  eexists _, _. split_and!; [exact Ha'|exact Hb'|..];
    unfold euclidean, fin_row; xreal_norm; [|fin_eq..].
  f_equal.
  pose proof (contact_separation xa ya xb yb Hn r ltac:(lra)) as Hsep.
  cbv zeta in Hsep. etrans; [|exact Hsep]. f_equal. ring.
Qed.

Lemma resolve_separates_to_contact_witness :
  ∃ ra' rb',
    resolve (Fin 3) [0%nat] [1%nat] head_on !! 0%nat = Some ra' ∧
    resolve (Fin 3) [0%nat] [1%nat] head_on !! 1%nat = Some rb' ∧
    euclidean ra' rb' = (ntwo * Fin 3)%num ∧
    (nhalf * (px ra' + px rb'))%num = Fin ((10 + 16) / 2) ∧
    (nhalf * (py ra' + py rb'))%num = Fin ((50 + 50) / 2).
Proof.
  apply (resolve_separates_to_contact (Fin 3) head_on [0%nat] [1%nat] 0 0 1
           10 50 5 0 16 50 (-5) 0);
    [apply head_on_collide|reflexivity..|rewrite (sqrt_eq _ 6); lra].
Defined.

(** C8. Two particles of radius 3 at (10,50) and (16,50) with velocities
    (5,0) and (-5,0): one [step] with [time_step = 0] finds the pair (0, 1),
    swaps the two velocities and leaves both positions as they are, on the
    exact reals and on binary64 alike. *)
Theorem head_on_swaps_velocities :
  collide (Fin 3) (integrate (Fin 0) head_on) = ([0%nat], [1%nat]) ∧
  real_step (Fin 0) head_on = [fin_row 10 50 (-5) 0; fin_row 16 50 5 0] ∧
  collide 3%float (integrate 0%float head_on_f64) = ([0%nat], [1%nat]) ∧
  f64_step 0%float head_on_f64 = [Row 10 50 (-5) 0; Row 16 50 5 0]%float.
Proof.
  split_and!.
  - rewrite integrate_zero by (unfold head_on; repeat constructor; eauto 10).
    apply head_on_collide.
  - apply head_on_step.
  - vm_compute. reflexivity.
  - vm_compute. reflexivity.
Qed.

(** C4 fails on the code.  Two particles at the same point are matched, and
    [resolve] divides by the zero norm: every cell of both rows is NaN
    after the [step], on the exact reals and on binary64 alike. *)
Theorem overlap_yields_nan :
  collide (Fin 3) (integrate (Fin 0) overlap) = ([0%nat], [1%nat]) ∧
  real_step (Fin 0) overlap = [nan_row; nan_row] ∧
  f64_step 0%float overlap_f64
  = [Row nan nan nan nan; Row nan nan nan nan]%float.
Proof.
  split_and!.
  - rewrite integrate_zero by (unfold overlap; repeat constructor; eauto 10).
    apply overlap_collide.
  - apply overlap_step.
  - vm_compute. reflexivity.
Qed.



(** ** Particles at rest *)






(** * Further properties of the code *)

Local Close Scope R_scope.

Section Generic.
Context {A : Type} `{Num A}.
Variables (radius w h : A).

Lemma length_integrate t (st : list (row A)) : length (integrate t st) = length st.
Proof. apply length_fmap. Qed.

Lemma length_rebound (st : list (row A)) : length (rebound radius w h st) = length st.
Proof. rewrite rebound_fmap. apply length_fmap. Qed.

Lemma length_step t (st : list (row A)) : length (step radius w h t st) = length st.
Proof.
  unfold step. destruct (collide radius (integrate t st)) as [c1 c2].
  by rewrite length_rebound, resolve_length, length_integrate.
Qed.

(** X1. [step], and any number of calls of it, keeps the number of rows. *)
Theorem steps_keep_particle_count n t (st : list (row A)) :
  length (steps radius w h n t st) = length st.
Proof.
  revert st. induction n as [|n IH]; intros st; [done|].
  simpl. by rewrite IH, length_step.
Qed.

Lemma collide_length (st : list (row A)) :
  length (collide radius st).1 = length (collide radius st).2.
Proof. rewrite collide_eq. apply distinct_length. Qed.

(** Every index of the matching belongs to one of its pairs. *)
Lemma collide_member (st : list (row A)) k :
  k ∈ (collide radius st).1 ++ (collide radius st).2 →
  ∃ a b, (a, b) ∈ zip (collide radius st).1 (collide radius st).2 ∧
         (k = a ∨ k = b).
Proof.
  pose proof (collide_length st) as Hlen.
  intros [Hin|Hin]%elem_of_app; apply list_elem_of_lookup in Hin as [j Hj].
  - destruct (lookup_lt_is_Some_2 (collide radius st).2 j) as [b Hb].
    { rewrite <- Hlen. by eapply lookup_lt_Some. }
    exists k, b. split; [|by left].
    apply list_elem_of_lookup. exists j. by rewrite lookup_zip_with, Hj, Hb.
  - destruct (lookup_lt_is_Some_2 (collide radius st).1 j) as [a Ha].
    { rewrite Hlen. by eapply lookup_lt_Some. }
    exists a, k. split; [|by right].
    apply list_elem_of_lookup. exists j. by rewrite lookup_zip_with, Ha, Hj.
Qed.

(** X2. The two arrays of the matching have the same length, and the pair
    at any position [k] is a colliding pair [(a, b)] with
    [a < b < particle_count]: no index is out of range and no pair is
    invented. *)
Theorem matched_pairs_are_colliding (st : list (row A)) k a b :
  (collide radius st).1 !! k = Some a →
  (collide radius st).2 !! k = Some b →
  length (collide radius st).1 = length (collide radius st).2 ∧
  a < b < length st ∧
  (euclidean (nth a st row0) (nth b st row0) <=? ntwo * radius)%num = true.
Proof.
  intros Ha Hb. split; [apply collide_length|].
  apply (collide_near radius st a b).
  apply list_elem_of_lookup. exists k. by rewrite lookup_zip_with, Ha, Hb.
Qed.

(** The first colliding pair survives the three stages. *)
Lemma spec_distinct_head p ps :
  (∀ q, q ∈ p :: ps → q.1 < q.2) →
  (∀ q, q ∈ ps → p.1 ≤ q.1) →
  p ∈ spec_distinct (p :: ps).
Proof.
  intros Hlt Hmin. unfold spec_distinct.
  set (s1 := first_per fst [] (p :: ps)).
  assert (Hs1 : ∃ t, s1 = p :: t) by (by eexists).
  destruct Hs1 as [t Hs1].
  set (s2 := first_per snd [] s1).
  assert (Hs2 : ∃ t', s2 = p :: t').
  { unfold s2. rewrite Hs1. by eexists. }
  destruct Hs2 as [t' Hs2].
  apply filter_elem. split; [rewrite Hs2; by left|].
  apply negb_true_iff, existsb_eqb_false.
  intros (q & Hq & Hin)%list_elem_of_fmap.
  assert (q ∈ p :: ps) as Hq'.
  { eapply elem_of_sublist; [|apply (first_per_sublist fst [])].
    eapply elem_of_sublist; [exact Hin|apply (first_per_sublist snd [])]. }
  pose proof (Hlt q Hq') as Hq12.
  apply elem_of_cons in Hq' as [->|Hq']; [lia|].
  pose proof (Hmin q Hq'). lia.
Qed.

Lemma all_pairs_order n : 
  ∀ l1 p l2, all_pairs n = l1 ++ p :: l2 → ∀ q, q ∈ l2 → p.1 ≤ q.1.
Proof.
  pose proof (triu_rows_sorted n) as Hs.
  rewrite <- (fst_zip (triu_indices n).1 (triu_indices n).2) in Hs
    by (by rewrite triu_indices_length).
  rewrite triu_indices_pairs in Hs.
  intros l1 p l2 Heq q Hq. rewrite Heq, fmap_app, fmap_cons in Hs.
  apply StronglySorted_app_1_r, StronglySorted_cons in Hs as [Hall _].
  eapply Forall_forall in Hall; [exact Hall|]. by apply list_elem_of_fmap_2.
Qed.

Lemma filter_head_split {B} (f : B → bool) l p t :
  List.filter f l = p :: t → ∃ l1 l2, l = l1 ++ p :: l2 ∧ t = List.filter f l2.
Proof.
  induction l as [|x l IH]; simpl; [done|].
  destruct (f x) eqn:E.
  - intros [= -> <-]. by exists [], l.
  - intros (l1 & l2 & -> & ->)%IH. by exists (x :: l1), l2.
Qed.

(** X3. The matching is empty exactly when no two particles are within
    [2 * radius] of each other: the three stages never drop every pair. *)
Theorem matching_empty_iff (st : list (row A)) :
  collide radius st = ([], []) ↔
  ∀ i j, i < j < length st →
    (euclidean (nth i st row0) (nth j st row0) <=? ntwo * radius)%num = false.
Proof.
  split.
  - intros Hc i j Hij.
    destruct (euclidean _ _ <=? _)%num eqn:Hnear; [|done]. exfalso.
    assert ((i, j) ∈ spec_colliding radius st) as Hin.
    { apply filter_elem. split; [by apply all_pairs_elem|done]. }
    destruct (spec_colliding radius st) as [|p ps] eqn:Hps;
      [by apply elem_of_nil in Hin|].
    assert (p ∈ spec_matching radius st) as Hp.
    { unfold spec_matching. rewrite Hps.
      destruct (filter_head_split _ _ _ _ Hps) as (l1 & l2 & Hall & ->).
      apply spec_distinct_head.
      - intros [a b] Hq.
        assert ((a, b) ∈ all_pairs (length st)) as Hab.
        { rewrite <- Hps in Hq. by apply filter_elem in Hq as [? _]. }
        apply all_pairs_elem in Hab. simpl. lia.
      - intros q [Hq _]%filter_elem. by eapply all_pairs_order. }
    apply collide_elem in Hp. rewrite Hc in Hp. by apply elem_of_nil in Hp.
  - intros Hfar. apply collide_none. intros [i j] Hp%all_pairs_elem.
    by apply Hfar.
Qed.

(** X4. With fewer than two particles nothing is matched, and a step only
    integrates and reflects. *)
Theorem few_particles_no_matching t (st : list (row A)) :
  length st ≤ 1 →
  collide radius (integrate t st) = ([], []) ∧
  step radius w h t st = rebound radius w h (integrate t st).
Proof.
  intros Hlen.
  assert (Hc : collide radius (integrate t st) = ([], [])).
  { apply collide_none. intros [i j] Hp%all_pairs_elem.
    rewrite length_integrate in Hp. lia. }
  split; [done|]. unfold step. by rewrite Hc.
Qed.

End Generic.

Lemma matched_pairs_are_colliding_witness :
  length (collide 3%float bystander_f64).1 = length (collide 3%float bystander_f64).2 ∧
  0 < 1 < length bystander_f64 ∧
  (euclidean (nth 0 bystander_f64 row0) (nth 1 bystander_f64 row0)
   <=? ntwo * 3%float)%num = true.
Proof.
  apply (matched_pairs_are_colliding 3%float bystander_f64 0 0 1);
    rewrite bystander_collide; reflexivity.
Defined.

Lemma few_particles_no_matching_witness :
  collide 3%float (integrate 1%float [Row 1 50 (-5) 0]%float) = ([], []) ∧
  step 3%float 700%float 700%float 1%float [Row 1 50 (-5) 0]%float
  = rebound 3%float 700%float 700%float (integrate 1%float [Row 1 50 (-5) 0]%float).
Proof.
  apply (few_particles_no_matching 3%float 700%float 700%float 1%float
           [Row 1 50 (-5) 0]%float).
  simpl. lia.
Defined.

Local Open Scope R_scope.

(** ** Integration *)

Lemma finite_integrate t st : finite_state st → finite_state (integrate (Fin t) st).
Proof.
  unfold finite_state, integrate. intros Hfin. apply Forall_fmap.
  eapply Forall_impl; [exact Hfin|]. intros r (x & y & u & v & ->). simpl.
  exists (x + u * t), (y + v * t), u, v. reflexivity.
Qed.

(** X5. Over a state of real numbers, integrating by [t1] and then by [t2]
    is integrating by [t1 + t2]. *)
Theorem integrate_adds_time_steps t1 t2 st :
  finite_state st →
  integrate (Fin t2) (integrate (Fin t1) st) = integrate (Fin (t1 + t2)) st.
Proof.
  intros Hfin. unfold integrate. rewrite <- list_fmap_compose.
  induction Hfin as [|r st (x & y & u & v & ->) _ IH]; csimpl; [done|].
  f_equal; [|exact IH]. unfold fin_row. xreal_norm. fin_eq.
Qed.

(** ** The wall loop on arbitrary rows *)

Lemma rebound_row_other_axis (radius size : xreal) r :
  px (rebound_row radius 1 size r) = px r ∧ vx (rebound_row radius 1 size r) = vx r ∧
  py (rebound_row radius 0 size r) = py r ∧ vy (rebound_row radius 0 size r) = vy r.
Proof.
  unfold rebound_row. cbn [get_col set_col Nat.add].
  split_and!; destruct (_ <? _)%num, (_ <? _)%num; reflexivity.
Qed.

Lemma rebound_row_settled_x rad size r :
  settled rad size (px r) → rebound_row (Fin rad) 0 (Fin size) r = r.
Proof.
  destruct r as [[x|] y u v]; unfold settled, rebound_row;
    cbn [get_col set_col Nat.add px]; autorewrite with xreal.
  - intros Hx. by rewrite (xltb_false x rad), (xltb_false (size - rad) x) by lra.
  - done.
Qed.

Lemma rebound_row_settled_y rad size r :
  settled rad size (py r) → rebound_row (Fin rad) 1 (Fin size) r = r.
Proof.
  destruct r as [x [y|] u v]; unfold settled, rebound_row;
    cbn [get_col set_col Nat.add py]; autorewrite with xreal.
  - intros Hy. by rewrite (xltb_false y rad), (xltb_false (size - rad) y) by lra.
  - done.
Qed.

Lemma rebound_row_settles_x rad size r :
  2 * rad + 1 <= size → settled rad size (px (rebound_row (Fin rad) 0 (Fin size) r)).
Proof.
  intros Hsz. destruct r as [[x|] y u v]; unfold settled, rebound_row;
    cbn [get_col set_col Nat.add px]; autorewrite with xreal; [|done].
  destruct (Rlt_dec x rad) as [Hlo|Hlo].
  - rewrite (xltb_true x rad), (xltb_false (size - rad) x) by lra.
    cbn [px set_col get_col]. autorewrite with xreal. lra.
  - rewrite (xltb_false x rad) by lra.
    destruct (Rlt_dec (size - rad) x) as [Hhi|Hhi].
    + rewrite (xltb_true (size - rad) x) by lra.
      cbn [px set_col get_col]. autorewrite with xreal. lra.
    + rewrite (xltb_false (size - rad) x) by lra. cbn [px]. lra.
Qed.

Lemma rebound_row_settles_y rad size r :
  2 * rad + 1 <= size → settled rad size (py (rebound_row (Fin rad) 1 (Fin size) r)).
Proof.
  intros Hsz. destruct r as [x [y|] u v]; unfold settled, rebound_row;
    cbn [get_col set_col Nat.add py]; autorewrite with xreal; [|done].
  destruct (Rlt_dec y rad) as [Hlo|Hlo].
  - rewrite (xltb_true y rad), (xltb_false (size - rad) y) by lra.
    cbn [py set_col get_col]. autorewrite with xreal. lra.
  - rewrite (xltb_false y rad) by lra.
    destruct (Rlt_dec (size - rad) y) as [Hhi|Hhi].
    + rewrite (xltb_true (size - rad) y) by lra.
      cbn [py set_col get_col]. autorewrite with xreal. lra.
    + rewrite (xltb_false (size - rad) y) by lra. cbn [py]. lra.
Qed.

Lemma rebound_settles rad wd ht st k r :
  2 * rad + 1 <= wd → 2 * rad + 1 <= ht →
  rebound (Fin rad) (Fin wd) (Fin ht) st !! k = Some r →
  settled rad wd (px r) ∧ settled rad ht (py r).
Proof.
  intros Hw Hh. rewrite rebound_fmap, list_lookup_fmap.
  destruct (st !! k) as [r0|]; [|done]. intros [= <-]. simpl. split.
  - destruct (rebound_row_other_axis (Fin rad) (Fin ht)
                (rebound_row (Fin rad) 0 (Fin wd) r0)) as (-> & _).
    by apply rebound_row_settles_x.
  - by apply rebound_row_settles_y.
Qed.


(** X7. In such a domain the wall loop is idempotent: run on its own
    result it changes nothing, so no particle is reflected twice. *)
Theorem rebound_idempotent rad wd ht st :
  2 * rad + 1 <= wd → 2 * rad + 1 <= ht →
  rebound (Fin rad) (Fin wd) (Fin ht) (rebound (Fin rad) (Fin wd) (Fin ht) st)
  = rebound (Fin rad) (Fin wd) (Fin ht) st.
Proof.
  intros Hw Hh.
  set (st' := rebound (Fin rad) (Fin wd) (Fin ht) st).
  rewrite (rebound_fmap _ _ _ st'). rewrite <- (list_fmap_id st') at 2.
  apply list_fmap_ext. intros k r Hr.
  destruct (rebound_settles rad wd ht st k r Hw Hh Hr) as [Hx Hy].
  simpl. rewrite rebound_row_settled_x by done. by apply rebound_row_settled_y.
Qed.



(** X9. A row of NaN is in no pair of the matching and is a row of NaN
    again after the step, whatever the radius, the canvas size and the
    time step. *)
Theorem nan_row_is_inert radius wd ht t (st : list (row xreal)) k :
  st !! k = Some nan_row →
  (k ∉ (collide radius (integrate t st)).1 ++ (collide radius (integrate t st)).2) ∧
  step radius wd ht t st !! k = Some nan_row.
Proof.
  intros Hk.
  assert (Hk1 : integrate t st !! k = Some nan_row).
  { unfold integrate. by rewrite list_lookup_fmap, Hk. }
  assert (Hout : k ∉ (collide radius (integrate t st)).1
                     ++ (collide radius (integrate t st)).2).
  { intros (a & b & Hab & Hk')%collide_member.
    destruct (collide_near radius _ a b Hab) as [_ Hnear].
    unfold near, pair_dist in Hnear. cbn [fst snd] in Hnear.
    destruct Hk' as [<-|<-]; rewrite (nth_lookup_Some _ _ _ _ Hk1) in Hnear;
      [done|].
    unfold euclidean, nan_row in Hnear. cbn [px py] in Hnear.
    by destruct (px (nth a (integrate t st) row0)),
                (py (nth a (integrate t st) row0)). }
  split; [done|]. unfold step.
  destruct (collide radius (integrate t st)) as [c1 c2]. cbn [fst snd] in Hout.
  apply not_elem_of_app in Hout as [Ho1 Ho2].
  rewrite rebound_fmap, list_lookup_fmap.
  assert (resolve radius c1 c2 (integrate t st) !! k = Some nan_row) as ->.
  { unfold resolve. destruct c1; [done|]. cbn zeta.
    by rewrite !scatter_lookup_notin. }
  simpl. f_equal. unfold rebound_row, nan_row. cbn [get_col set_col Nat.add px py].
  by destruct (wd - radius)%num, (ht - radius)%num.
Qed.

Lemma nan_row_is_inert_witness :
  (0%nat ∉ (collide (Fin 3) (integrate (Fin 1) [nan_row; fin_row 10 50 5 0])).1
           ++ (collide (Fin 3) (integrate (Fin 1) [nan_row; fin_row 10 50 5 0])).2) ∧
  step (Fin 3) (Fin 700) (Fin 700) (Fin 1) [nan_row; fin_row 10 50 5 0] !! 0%nat
  = Some nan_row.
Proof.
  apply (nan_row_is_inert (Fin 3) (Fin 700) (Fin 700) (Fin 1)
           [nan_row; fin_row 10 50 5 0] 0).
  reflexivity.
Defined.

(** X10. For every pair of the matching with real rows and centres a
    distance [n > 0] apart, [resolve] reverses the component of the
    relative velocity along the line of centres and keeps the component
    across it. *)
Theorem resolve_reverses_normal_velocity radius (st : list (row xreal))
    c1 c2 k a b xa ya ua va xb yb ub vb :
  collide radius st = (c1, c2) → c1 !! k = Some a → c2 !! k = Some b →
  st !! a = Some (fin_row xa ya ua va) → st !! b = Some (fin_row xb yb ub vb) →
  0 < R_sqrt.sqrt ((xb - xa) * (xb - xa) + (yb - ya) * (yb - ya)) →
  ∃ ra' rb' ua' va' ub' vb',
    resolve radius c1 c2 st !! a = Some ra' ∧
    resolve radius c1 c2 st !! b = Some rb' ∧
    vx ra' = Fin ua' ∧ vy ra' = Fin va' ∧ vx rb' = Fin ub' ∧ vy rb' = Fin vb' ∧
    (ua' - ub') * (xb - xa) + (va' - vb') * (yb - ya)
    = - ((ua - ub) * (xb - xa) + (va - vb) * (yb - ya)) ∧
    (ua' - ub') * (yb - ya) - (va' - vb') * (xb - xa)
    = (ua - ub) * (yb - ya) - (va - vb) * (xb - xa).
Proof.
  intros Hc Ha Hb Hra Hrb Hn.
  destruct (resolve_pair_fin radius st c1 c2 k a b xa ya ua va xb yb ub vb
              Hc Ha Hb Hra Hrb Hn) as (r & -> & Hle & Ha' & Hb').
  do 6 eexists. split_and!; [exact Ha'|exact Hb'|reflexivity..| |].
  - pose proof (norm_sqr xa ya xb yb) as Hsq. cbv zeta in Hsq.
    set (n := R_sqrt.sqrt _) in *. set (dx := xb - xa) in *. set (dy := yb - ya) in *.
    set (s := (ua - ub) * dx + (va - vb) * dy).
    assert (Hk : s / (n * n) * (dx * dx + dy * dy) = s).
    { rewrite <- Hsq. field. lra. }
    apply Rminus_diag_uniq.
    transitivity (2 * (s - s / (n * n) * (dx * dx + dy * dy))); [unfold s; ring|].
    rewrite Hk. ring.
  - ring.
Qed.

Lemma resolve_reverses_normal_velocity_witness :
  ∃ ra' rb' ua' va' ub' vb',
    resolve (Fin 3) [0%nat] [1%nat] head_on !! 0%nat = Some ra' ∧
    resolve (Fin 3) [0%nat] [1%nat] head_on !! 1%nat = Some rb' ∧
    vx ra' = Fin ua' ∧ vy ra' = Fin va' ∧ vx rb' = Fin ub' ∧ vy rb' = Fin vb' ∧
    (ua' - ub') * (16 - 10) + (va' - vb') * (50 - 50)
    = - ((5 - -5) * (16 - 10) + (0 - 0) * (50 - 50)) ∧
    (ua' - ub') * (50 - 50) - (va' - vb') * (16 - 10)
    = (5 - -5) * (50 - 50) - (0 - 0) * (16 - 10).
Proof.
  apply (resolve_reverses_normal_velocity (Fin 3) head_on [0%nat] [1%nat] 0 0 1
           10 50 5 0 16 50 (-5) 0);
    [apply head_on_collide|reflexivity..|rewrite (sqrt_eq _ 6); lra].
Defined.



Lemma initial_row_kinetic velocity x y theta :
  kinetic (initial_row velocity x y theta) = Fin (velocity * velocity).
Proof.
  unfold kinetic, initial_row. xreal_norm. f_equal.
  pose proof (sin2_cos2 theta) as Hsc. unfold Rsqr in Hsc.
  transitivity (velocity * velocity * (sin theta * sin theta + cos theta * cos theta));
    [ring|]. rewrite Hsc. ring.
Qed.

(** ** Sums over a state *)

Lemma rsum_insert f (l : list (row xreal)) i x y :
  l !! i = Some y → rsum f (<[i:=x]> l) = rsum f l - f y + f x.
Proof.
  revert i. induction l as [|r l IH]; intros [|i] Hi; simplify_eq /=.
  - lra.
  - rewrite (IH i) by done. lra.
Qed.

Lemma isum_ext g g' idx :
  (∀ j, j ∈ idx → g j = g' j) → isum g idx = isum g' idx.
Proof.
  induction idx as [|i idx IH]; intros Hg; [done|]. simpl.
  rewrite (Hg i) by (by left). rewrite IH; [done|]. intros j Hj. apply Hg. by right.
Qed.

Lemma isum_app g idx1 idx2 : isum g (idx1 ++ idx2) = isum g idx1 + isum g idx2.
Proof. induction idx1 as [|i idx1 IH]; simpl; [lra|]. rewrite IH. lra. Qed.

(** Two states that differ only at the indices [idx]: the sums differ by
    the differences at those indices. *)
Lemma rsum_diff f d (idx : list nat) :
  ∀ l l' : list (row xreal),
  length l' = length l → NoDup idx →
  (∀ i, i ∉ idx → l' !! i = l !! i) →
  rsum f l' - rsum f l = isum (λ i, f (nth i l' d) - f (nth i l d)) idx.
Proof.
  induction idx as [|i idx IH]; intros l l' Hlen Hnd Hout.
  - replace l' with l; [simpl; lra|]. apply list_eq. intros i.
    symmetry. apply Hout, not_elem_of_nil.
  - apply NoDup_cons in Hnd as [Hi Hnd]. cbn [isum foldr]. fold (isum (λ i, f (nth i l' d) - f (nth i l d)) idx).
    destruct (decide (i < length l)%nat) as [Hlt|Hge].
    + destruct (lookup_lt_is_Some_2 l i Hlt) as [y Hy].
      destruct (lookup_lt_is_Some_2 l' i ltac:(lia)) as [y' Hy'].
      rewrite (nth_lookup_Some _ _ _ _ Hy), (nth_lookup_Some _ _ _ _ Hy').
      specialize (IH l (<[i:=y]> l')).
      rewrite (rsum_insert f l' i y y' Hy') in IH.
      rewrite (isum_ext _ (λ j, f (nth j l' d) - f (nth j l d))) in IH.
      * rewrite <- IH; [lra|by rewrite length_insert|done|].
        intros j Hj. destruct (decide (j = i)) as [->|Hne].
        -- by rewrite list_lookup_insert_eq by lia.
        -- rewrite list_lookup_insert_ne by done. apply Hout.
           by intros [->|?]%elem_of_cons.
      * intros j Hj. assert (i ≠ j) by (by intros ->).
        by rewrite !nth_lookup, list_lookup_insert_ne.
    + rewrite !(nth_overflow _ d) by lia.
      rewrite <- (IH l l'); [lra|done..|].
      intros j Hj. destruct (decide (j = i)) as [->|Hne].
      * rewrite !lookup_ge_None_2 by lia. done.
      * apply Hout. by intros [->|?]%elem_of_cons.
Qed.

(** The differences of a matching cancel pair by pair. *)
Lemma isum_pairs g (c1 c2 : list nat) :
  length c1 = length c2 →
  (∀ k a b, c1 !! k = Some a → c2 !! k = Some b → g a + g b = 0) →
  isum g (c1 ++ c2) = 0.
Proof.
  rewrite isum_app. revert c2.
  induction c1 as [|a c1 IH]; intros [|b c2] Hlen Hg; simplify_eq /=; [lra|].
  pose proof (Hg 0%nat a b eq_refl eq_refl).
  pose proof (IH c2 Hlen (λ k, Hg (S k))). lra.
Qed.

Lemma resolve_untouched {A : Type} `{Num A} (radius : A) c1 c2 (st : list (row A)) i :
  i ∉ c1 ++ c2 → resolve radius c1 c2 st !! i = st !! i.
Proof.
  intros [Hi1 Hi2]%not_elem_of_app. unfold resolve.
  destruct c1 as [|a0 c1']; [done|]. cbn zeta.
  by rewrite !scatter_lookup_notin.
Qed.

Lemma total_kinetic_fin st :
  finite_state st → total_kinetic st = Fin (rsum rkin st).
Proof.
  induction 1 as [|r st (x & y & u & v & ->) _ IH]; [done|].
  simpl. rewrite IH. unfold kinetic, fin_row. xreal_norm. done.
Qed.

Lemma total_vx_fin st :
  finite_state st → total_vx st = Fin (rsum (λ r, real_of (vx r)) st).
Proof.
  induction 1 as [|r st (x & y & u & v & ->) _ IH]; [done|].
  simpl. rewrite IH. unfold fin_row. xreal_norm. done.
Qed.

Lemma total_vy_fin st :
  finite_state st → total_vy st = Fin (rsum (λ r, real_of (vy r)) st).
Proof.
  induction 1 as [|r st (x & y & u & v & ->) _ IH]; [done|].
  simpl. rewrite IH. unfold fin_row. xreal_norm. done.
Qed.

Lemma apart_norm_pos xa ya xb yb :
  (Fin xa, Fin ya) ≠ (Fin xb, Fin yb) →
  0 < R_sqrt.sqrt ((xb - xa) * (xb - xa) + (yb - ya) * (yb - ya)).
Proof.
  intros Hne. apply sqrt_lt_R0.
  pose proof (Rle_0_sqr (xb - xa)) as Hx2. pose proof (Rle_0_sqr (yb - ya)) as Hy2.
  unfold Rsqr in Hx2, Hy2.
  destruct (Req_dec xa xb) as [->|Hx].
  - destruct (Req_dec ya yb) as [->|Hy]; [done|].
    assert (yb - ya ≠ 0) as Hd by lra.
    apply Rsqr_pos_lt in Hd. unfold Rsqr in Hd. lra.
  - assert (xb - xa ≠ 0) as Hd by lra.
    apply Rsqr_pos_lt in Hd. unfold Rsqr in Hd. lra.
Qed.

Section ResolveTotals.
Variables (radius : xreal) (st : list (row xreal)) (c1 c2 : list nat).
Hypothesis Hc : collide radius st = (c1, c2).
Hypothesis Hfin : finite_state st.
Hypothesis Hapart : ∀ k a b ra rb,
  c1 !! k = Some a → c2 !! k = Some b → st !! a = Some ra → st !! b = Some rb →
  (px ra, py ra) ≠ (px rb, py rb).

Lemma matched_rows k a b :
  c1 !! k = Some a → c2 !! k = Some b →
  ∃ xa ya ua va xb yb ub vb,
    st !! a = Some (fin_row xa ya ua va) ∧ st !! b = Some (fin_row xb yb ub vb) ∧
    0 < R_sqrt.sqrt ((xb - xa) * (xb - xa) + (yb - ya) * (yb - ya)).
Proof using Hc Hfin Hapart.
  intros Ha Hb.
  destruct (collide_lookup radius st c1 c2 k a b Hc Ha Hb) as (_ & Hlt & _).
  destruct (lookup_lt_is_Some_2 st a ltac:(lia)) as [ra Hra].
  destruct (lookup_lt_is_Some_2 st b ltac:(lia)) as [rb Hrb].
  pose proof (Hapart k a b ra rb Ha Hb Hra Hrb) as Hne.
  destruct (Forall_lookup_1 _ _ _ _ Hfin Hra) as (xa & ya & ua & va & ->).
  destruct (Forall_lookup_1 _ _ _ _ Hfin Hrb) as (xb & yb & ub & vb & ->).
  exists xa, ya, ua, va, xb, yb, ub, vb. split_and!; [done..|].
  by apply apart_norm_pos.
Qed.

Lemma resolve_finite : finite_state (resolve radius c1 c2 st).
Proof using Hc Hfin Hapart.
  apply Forall_lookup_2. intros i r Hr.
  destruct (decide (i ∈ c1 ++ c2)) as [Hin|Hout].
  - pose proof (distinct_length (raw_colliding radius st).1
                  (raw_colliding radius st).2) as Hlen.
    rewrite <- collide_eq, Hc in Hlen. cbn [fst snd] in Hlen.
    apply elem_of_app in Hin as [Hin|Hin];
      apply list_elem_of_lookup in Hin as [k Hk].
    + destruct (lookup_lt_is_Some_2 c2 k) as [b Hb].
      { rewrite <- Hlen. by eapply lookup_lt_Some. }
      destruct (matched_rows k i b Hk Hb)
        as (xa & ya & ua & va & xb & yb & ub & vb & Hra & Hrb & Hn).
      destruct (resolve_pair_fin radius st c1 c2 k i b _ _ _ _ _ _ _ _
                  Hc Hk Hb Hra Hrb Hn) as (rr & _ & _ & Ha' & _).
      rewrite Ha' in Hr. injection Hr as <-. eauto 10.
    + destruct (lookup_lt_is_Some_2 c1 k) as [a Ha].
      { rewrite Hlen. by eapply lookup_lt_Some. }
      destruct (matched_rows k a i Ha Hk)
        as (xa & ya & ua & va & xb & yb & ub & vb & Hra & Hrb & Hn).
      destruct (resolve_pair_fin radius st c1 c2 k a i _ _ _ _ _ _ _ _
                  Hc Ha Hk Hra Hrb Hn) as (rr & _ & _ & _ & Hb').
      rewrite Hb' in Hr. injection Hr as <-. eauto 10.
  - rewrite resolve_untouched in Hr by done.
    exact (Forall_lookup_1 _ _ _ _ Hfin Hr).
Qed.

(** A reading whose pair sums [resolve] keeps has the same total after
    [resolve]. *)
Lemma resolve_rsum (f : row xreal → R) :
  (∀ xa ya ua va xb yb ub vb r,
     let dx := xb - xa in
     let dy := yb - ya in
     let n := R_sqrt.sqrt (dx * dx + dy * dy) in
     let s := (ua - ub) * dx + (va - vb) * dy in
     let c := 1 / 2 * (2 * r / n - 1) in
     0 < n →
     f (fin_row (xa - c * dx) (ya - c * dy)
                (ua - s / (n * n) * dx) (va - s / (n * n) * dy))
     + f (fin_row (xb + c * dx) (yb + c * dy)
                  (ub + s / (n * n) * dx) (vb + s / (n * n) * dy))
     = f (fin_row xa ya ua va) + f (fin_row xb yb ub vb)) →
  rsum f (resolve radius c1 c2 st) = rsum f st.
Proof using Hc Hfin Hapart.
  intros Hf. apply Rminus_diag_uniq.
  pose proof (distinct_NoDup (raw_colliding radius st).1
                (raw_colliding radius st).2) as Hnd.
  pose proof (distinct_length (raw_colliding radius st).1
                (raw_colliding radius st).2) as Hlen.
  rewrite <- collide_eq, Hc in Hnd, Hlen. cbn [fst snd] in Hnd, Hlen.
  rewrite (rsum_diff f row0 (c1 ++ c2)); [|apply resolve_length|done|].
  - apply isum_pairs; [done|]. intros k a b Ha Hb.
    destruct (matched_rows k a b Ha Hb)
      as (xa & ya & ua & va & xb & yb & ub & vb & Hra & Hrb & Hn).
    destruct (resolve_pair_fin radius st c1 c2 k a b _ _ _ _ _ _ _ _
                Hc Ha Hb Hra Hrb Hn) as (r & _ & _ & Ha' & Hb').
    cbv zeta in Ha', Hb'.
    rewrite (nth_lookup_Some _ _ _ _ Ha'), (nth_lookup_Some _ _ _ _ Hb').
    rewrite (nth_lookup_Some _ _ _ _ Hra), (nth_lookup_Some _ _ _ _ Hrb).
    pose proof (Hf xa ya ua va xb yb ub vb r Hn) as Hpair. cbv zeta in Hpair.
    lra.
  - intros i Hi. by apply resolve_untouched.
Qed.
End ResolveTotals.

(** X12. Over a state of real numbers in which no matched pair shares a
    position, [resolve] leaves a state of real numbers with the same sum of
    velocities on each axis (total momentum, the masses being equal) and
    the same sum of squared speeds (total kinetic energy). *)
Theorem resolve_conserves_totals radius (st : list (row xreal)) c1 c2 :
  collide radius st = (c1, c2) →
  finite_state st →
  (∀ k a b ra rb,
     c1 !! k = Some a → c2 !! k = Some b → st !! a = Some ra → st !! b = Some rb →
     (px ra, py ra) ≠ (px rb, py rb)) →
  finite_state (resolve radius c1 c2 st) ∧
  total_vx (resolve radius c1 c2 st) = total_vx st ∧
  total_vy (resolve radius c1 c2 st) = total_vy st ∧
  total_kinetic (resolve radius c1 c2 st) = total_kinetic st.
Proof.
  intros Hc Hfin Hapart.
  pose proof (resolve_finite radius st c1 c2 Hc Hfin Hapart) as Hfin'.
  split; [done|].
  rewrite !total_vx_fin, !total_vy_fin, !total_kinetic_fin by done.
  split_and!; f_equal; apply (resolve_rsum radius st c1 c2 Hc Hfin Hapart);
    intros xa ya ua va xb yb ub vb r dx dy n s c Hn; unfold rkin, fin_row;
    cbn [vx vy real_of].
  - ring.
  - ring.
  - pose proof (elastic_energy xa ya ua va xb yb ub vb Hn) as He.
    cbv zeta in He. subst dx dy n s. lra.
Qed.

Lemma resolve_conserves_totals_witness :
  finite_state (resolve (Fin 3) [0%nat] [1%nat] head_on) ∧
  total_vx (resolve (Fin 3) [0%nat] [1%nat] head_on) = total_vx head_on ∧
  total_vy (resolve (Fin 3) [0%nat] [1%nat] head_on) = total_vy head_on ∧
  total_kinetic (resolve (Fin 3) [0%nat] [1%nat] head_on) = total_kinetic head_on.
Proof.
  apply (resolve_conserves_totals (Fin 3) head_on [0%nat] [1%nat]).
  - apply head_on_collide.
  - unfold head_on. repeat constructor; eauto 10.
  - intros k a b ra rb Ha Hb Hra Hrb.
    destruct k as [|k]; simplify_eq /=. intros Heq. injection Heq. lra.
Defined.

(** ** The whole step *)

Lemma integrate_rkin t st : rsum rkin (integrate t st) = rsum rkin st.
Proof.
  unfold integrate. induction st as [|r st IH]; [done|]. csimpl.
  fold (rsum rkin st). by rewrite <- IH.
Qed.

Lemma rebound_row_fin_x rad size x y u v :
  ∃ x' u', rebound_row (Fin rad) 0 (Fin size) (fin_row x y u v)
           = fin_row x' y u' v ∧ u' * u' = u * u.
Proof.
  unfold rebound_row, fin_row. xreal_norm.
  destruct (Rlt_dec x rad) as [Hlo|Hlo];
    [rewrite (xltb_true x rad) by lra|rewrite (xltb_false x rad) by lra];
    (destruct (Rlt_dec (size - rad) x) as [Hhi|Hhi];
     [rewrite (xltb_true (size - rad) x) by lra
     |rewrite (xltb_false (size - rad) x) by lra]);
    xreal_norm; eexists _, _; (split; [reflexivity|ring]).
Qed.

Lemma rebound_row_fin_y rad size x y u v :
  ∃ y' v', rebound_row (Fin rad) 1 (Fin size) (fin_row x y u v)
           = fin_row x y' u v' ∧ v' * v' = v * v.
Proof.
  unfold rebound_row, fin_row. xreal_norm.
  destruct (Rlt_dec y rad) as [Hlo|Hlo];
    [rewrite (xltb_true y rad) by lra|rewrite (xltb_false y rad) by lra];
    (destruct (Rlt_dec (size - rad) y) as [Hhi|Hhi];
     [rewrite (xltb_true (size - rad) y) by lra
     |rewrite (xltb_false (size - rad) y) by lra]);
    xreal_norm; eexists _, _; (split; [reflexivity|ring]).
Qed.

Lemma rebound_finite_rkin rad wd ht st :
  finite_state st →
  finite_state (rebound (Fin rad) (Fin wd) (Fin ht) st) ∧
  rsum rkin (rebound (Fin rad) (Fin wd) (Fin ht) st) = rsum rkin st.
Proof.
  rewrite rebound_fmap.
  induction 1 as [|r st (x & y & u & v & ->) _ [IHf IHs]];
    [split; [constructor|done]|].
  csimpl.
  destruct (rebound_row_fin_x rad wd x y u v) as (x' & u' & -> & Hu).
  destruct (rebound_row_fin_y rad ht x' y u' v) as (y' & v' & -> & Hv).
  split.
  - constructor; [eauto 10|exact IHf].
  - fold (rsum rkin st). rewrite IHs.
    assert (rkin (fin_row x' y' u' v') = rkin (fin_row x y u v)) as ->; [|done].
    unfold rkin, fin_row. cbn [vx vy real_of]. lra.
Qed.

(** X13. A whole step, walls included, conserves the sum of squared speeds
    (total kinetic energy) of a state of real numbers, provided no pair
    matched after the integration shares a position; the state after the
    step holds real numbers again. *)
Theorem step_conserves_kinetic_energy rad wd ht t (st : list (row xreal)) :
  finite_state st →
  (∀ k a b ra rb,
     (collide (Fin rad) (integrate (Fin t) st)).1 !! k = Some a →
     (collide (Fin rad) (integrate (Fin t) st)).2 !! k = Some b →
     integrate (Fin t) st !! a = Some ra → integrate (Fin t) st !! b = Some rb →
     (px ra, py ra) ≠ (px rb, py rb)) →
  finite_state (step (Fin rad) (Fin wd) (Fin ht) (Fin t) st) ∧
  total_kinetic (step (Fin rad) (Fin wd) (Fin ht) (Fin t) st) = total_kinetic st.
Proof.
  intros Hfin Hapart. unfold step.
  pose proof (finite_integrate t st Hfin) as Hfin1.
  destruct (collide (Fin rad) (integrate (Fin t) st)) as [c1 c2] eqn:Hc.
  cbn [fst snd] in Hapart.
  pose proof (resolve_finite _ _ c1 c2 Hc Hfin1 Hapart) as Hfin2.
  destruct (rebound_finite_rkin rad wd ht _ Hfin2) as [Hfin3 Hs3].
  split; [done|].
  rewrite !total_kinetic_fin by done. f_equal.
  rewrite Hs3, <- (integrate_rkin (Fin t) st).
  apply (resolve_rsum _ _ c1 c2 Hc Hfin1 Hapart).
  intros xa ya ua va xb yb ub vb r dx dy n s c Hn. unfold fin_row, rkin.
  cbn [vx vy real_of].
  pose proof (elastic_energy xa ya ua va xb yb ub vb Hn) as He.
  cbv zeta in He. subst dx dy n s. lra.
Qed.

Lemma step_conserves_kinetic_energy_witness :
  finite_state (step (Fin 3) (Fin 700) (Fin 700) (Fin 0) head_on) ∧
  total_kinetic (step (Fin 3) (Fin 700) (Fin 700) (Fin 0) head_on)
  = total_kinetic head_on.
Proof.
  apply (step_conserves_kinetic_energy 3 700 700 0 head_on).
  - unfold head_on. repeat constructor; eauto 10.
  - rewrite integrate_zero by (unfold head_on; repeat constructor; eauto 10).
    rewrite head_on_collide.
    intros k a b ra rb Ha Hb Hra Hrb.
    destruct k as [|k]; simplify_eq /=. intros Heq. injection Heq. lra.
Defined.

(** X14. Over the real numbers the initial state has the sum of squared
    speeds [N * velocity^2] for [N] particles: every particle starts with
    speed [|velocity|], whatever points and angles are drawn. *)
Theorem initial_total_kinetic velocity samples :
  total_kinetic (initial_state velocity samples)
  = Fin (INR (length samples) * (velocity * velocity)).
Proof.
  induction samples as [|[[x y] theta] samples IH].
  - unfold initial_state, total_kinetic.
    cbn [fmap list_fmap foldr length INR]. change nzero with (Fin 0). f_equal. lra.
  - change (total_kinetic (initial_state velocity ((x, y, theta) :: samples)))
      with (kinetic (initial_row velocity x y theta)
            + total_kinetic (initial_state velocity samples))%num.
    rewrite IH, initial_row_kinetic. cbn [length].
    xreal_norm. f_equal. rewrite S_INR. lra.
Qed.

Lemma euclidean_nonneg (p q : row xreal) d : euclidean p q = Fin d → 0 <= d.
Proof.
  unfold euclidean. destruct p as [[x1|] [y1|] u1 v1], q as [[x2|] [y2|] u2 v2];
    cbn [px py]; try done.
  autorewrite with xreal. intros [= <-]. apply sqrt_pos.
Qed.

(** X15. With a negative radius the matching is empty for every state. *)
Theorem negative_radius_no_matching rad (st : list (row xreal)) :
  rad < 0 → collide (Fin rad) st = ([], []).
Proof.
  intros Hrad. apply collide_none. intros p _. unfold near, pair_dist.
  destruct (euclidean _ _) as [d|] eqn:Hd; [|done].
  apply euclidean_nonneg in Hd. xreal_norm. apply xleb_false. lra.
Qed.

Lemma negative_radius_no_matching_witness :
  collide (Fin (-1)) overlap = ([], []).
Proof. apply (negative_radius_no_matching (-1) overlap). lra. Defined.





Lemma integrate_adds_time_steps_witness :
  integrate (Fin 2) (integrate (Fin 1) head_on) = integrate (Fin (1 + 2)) head_on.
Proof.
  apply (integrate_adds_time_steps 1 2 head_on).
  unfold head_on. repeat constructor; eauto 10.
Defined.


Lemma rebound_idempotent_witness :
  rebound (Fin 3) (Fin 700) (Fin 700)
          (rebound (Fin 3) (Fin 700) (Fin 700) [fin_row (-4) 50 (-5) 0])
  = rebound (Fin 3) (Fin 700) (Fin 700) [fin_row (-4) 50 (-5) 0].
Proof.
  apply (rebound_idempotent 3 700 700 [fin_row (-4) 50 (-5) 0]); lra.
Defined.
